(** * SOLID.ts: the video-game store queries and the inheritance examples

    A shallow embedding of [src/SOLID.ts].  Values of the TypeScript
    type [number] are IEEE 754 binary64 data, so they are modelled by
    Rocq's primitive floats, and [===], [<] and [>] by the primitive
    comparisons.  Arrays and class instances that the claims observe
    through their identity live in a heap of objects; console output
    and thrown errors are threaded through a small state-and-exception
    monad. *)

From Stdlib Require Import Floats String List.
From stdpp Require Import gmap strings list sorting.

(** ** Primitive values *)

(** TypeScript's [number]. *)
Definition number : Set := float.

(** [x === y] on numbers: IEEE equality ([NaN] differs from itself,
    the two zeros are equal). *)
Definition number_strict_eq (x y : number) : bool := PrimFloat.eqb x y.

(** [x < y] on numbers. *)
Definition number_lt (x y : number) : bool := PrimFloat.ltb x y.

(** [x > y] on numbers: the relational comparison [y < x], false when
    either side is [NaN]. *)
Definition number_gt (x y : number) : bool := PrimFloat.ltb y x.

(** [s === t] on strings: same sequence of code units. *)
Definition string_strict_eq (s t : string) : bool := String.eqb s t.

(** ** class VideoGame (lines 9-25) *)

Module VideoGame.
(** Both fields are private and never assigned after the constructor,
    so an instance is an immutable value. *)
Record t : Set := new { name : string; releaseDate : number }.

Definition getName (this : t) : string := name this.
Definition getReleaseDate (this : t) : number := releaseDate this.
End VideoGame.

(** ** Heap objects, worlds and the effect monad *)

Definition loc : Set := positive.

Inductive StudentClass : Set := StudentC | CorrectJavascriptStudentC.

(** The objects whose identity or fields the embedded code observes. *)
Inductive obj : Set :=
| ArrayObj (elems : list VideoGame.t)                 (* VideoGame[] *)
| VideoGameStoreObj (videoGames : loc)                (* VideoGameStore *)
| BetterVideoGameStoreObj (videoGames : loc)          (* BetterVideoGameStore *)
| StudentObj (cls : StudentClass)                     (* Student and its subclass *)
| CorrectGentlemanObj (name : string) (student : loc) (* CorrectGentleman *).

Record World : Type := mkWorld {
  heap : gmap loc obj;
  console : list string
}.

Inductive ErrorClass : Set := ErrorC | TypeErrorC.

Record Error : Set := mkError { error_class : ErrorClass; message : string }.

(** How a call ends: with a value, or with a thrown error. *)
Inductive Completion (A : Type) : Type :=
| Normal (a : A)
| Throw (e : Error).
Arguments Normal {A} a.
Arguments Throw {A} e.

Definition JS (A : Type) : Type := World → Completion A * World.

#[export] Instance JS_ret : MRet JS := λ A a w, (Normal a, w).

#[export] Instance JS_bind : MBind JS := λ A B f m w,
  match m w with
  | (Normal a, w') => f a w'
  | (Throw e, w') => (Throw e, w')
  end.

(** [throw new Error(msg)] and the runtime's own [TypeError]. *)
Definition throw {A} (c : ErrorClass) (msg : string) : JS A :=
  λ w, (Throw (mkError c msg), w).

(** [console.log(s)]. *)
Definition console_log (s : string) : JS unit :=
  λ w, (Normal tt, mkWorld (heap w) (console w ++ [s])).

(** Allocation of a new object at an unused address. *)
Definition alloc (o : obj) : JS loc :=
  λ w, let l := fresh (dom (heap w)) in
       (Normal l, mkWorld (<[l := o]> (heap w)) (console w)).

(** Assignment to the fields of an existing object. *)
Definition assign (l : loc) (o : obj) : JS unit :=
  λ w, (Normal tt, mkWorld (<[l := o]> (heap w)) (console w)).

(** *** Array.prototype.filter

    The loop of the language specification: the elements are visited by
    increasing index and each selected one is appended to the new
    array. *)
Definition filter_step (callbackfn : VideoGame.t → bool)
    (A : list VideoGame.t) (kValue : VideoGame.t) : list VideoGame.t :=
  if callbackfn kValue then A ++ [kValue] else A.

Definition filter_elems (callbackfn : VideoGame.t → bool)
    (O : list VideoGame.t) : list VideoGame.t :=
  fold_left (filter_step callbackfn) O [].

(** [O.filter(callbackfn)]: a receiver that is not an array has no
    [filter] method, and calling it is a [TypeError]. *)
Definition Array_filter (O : loc) (callbackfn : VideoGame.t → bool) : JS loc :=
  λ w, match heap w !! O with
       | Some (ArrayObj elems) => alloc (ArrayObj (filter_elems callbackfn elems)) w
       | _ => throw TypeErrorC "filter is not a function" w
       end.

(** ** class VideoGameStore (lines 27-49) *)

Module VideoGameStore.
(** [this.videoGames]; reading it off anything but a store yields
    [undefined], on which the following [.filter] is a [TypeError]. *)
Definition get_videoGames (this : loc) : JS loc :=
  λ w, match heap w !! this with
       | Some (VideoGameStoreObj a) => (Normal a, w)
       | _ => throw TypeErrorC "Cannot read properties of undefined" w
       end.

(** The field initialiser [= []] runs first, then the constructor
    body overwrites the field with its argument. *)
Definition new (videoGames : loc) : JS loc :=
  init ← alloc (ArrayObj []);
  this ← alloc (VideoGameStoreObj init);
  _ ← assign this (VideoGameStoreObj videoGames);
  mret this.

Definition getAllGamesByAge (this : loc) (age : number) : JS loc :=
  a ← get_videoGames this;
  Array_filter a (λ v, number_strict_eq (VideoGame.getReleaseDate v) age).

Definition getAllGamesByName (this : loc) (name : string) : JS loc :=
  a ← get_videoGames this;
  Array_filter a (λ v, string_strict_eq (VideoGame.getName v) name).

Definition getAllGamesOlderThanAge (this : loc) (age : number) : JS loc :=
  a ← get_videoGames this;
  Array_filter a (λ v, number_lt (VideoGame.getReleaseDate v) age).

Definition getAllGamesNewerThanAge (this : loc) (age : number) : JS loc :=
  a ← get_videoGames this;
  Array_filter a (λ v, number_gt (VideoGame.getReleaseDate v) age).
End VideoGameStore.

(** ** class VideoGameStoreGetter (lines 53-69) *)

Module VideoGameStoreGetter.
(** The methods never mention [this]. *)
Definition getAllGamesByAge (this collection : loc) (age : number) : JS loc :=
  Array_filter collection (λ v, number_strict_eq (VideoGame.getReleaseDate v) age).

Definition getAllGamesByName (this collection : loc) (name : string) : JS loc :=
  Array_filter collection (λ v, string_strict_eq (VideoGame.getName v) name).

Definition getAllGamesOlderThanAge (this collection : loc) (age : number) : JS loc :=
  Array_filter collection (λ v, number_lt (VideoGame.getReleaseDate v) age).

Definition getAllGamesNewerThanAge (this collection : loc) (age : number) : JS loc :=
  Array_filter collection (λ v, number_gt (VideoGame.getReleaseDate v) age).
End VideoGameStoreGetter.

(** ** class BetterVideoGameStore extends VideoGameStoreGetter (lines 71-78) *)

Module BetterVideoGameStore.
(** [super()] allocates nothing the model observes; the field is
    initialised to [[]] and then assigned the argument. *)
Definition new (videoGames : loc) : JS loc :=
  init ← alloc (ArrayObj []);
  this ← alloc (BetterVideoGameStoreObj init);
  _ ← assign this (BetterVideoGameStoreObj videoGames);
  mret this.

(** The four queries are inherited unchanged. *)
Definition getAllGamesByAge := VideoGameStoreGetter.getAllGamesByAge.
Definition getAllGamesByName := VideoGameStoreGetter.getAllGamesByName.
Definition getAllGamesOlderThanAge := VideoGameStoreGetter.getAllGamesOlderThanAge.
Definition getAllGamesNewerThanAge := VideoGameStoreGetter.getAllGamesNewerThanAge.
End BetterVideoGameStore.

(** ** Liskov substitution: LivingBeing, Human, Plant (lines 117-175) *)

Module LivingBeing.
(** Instances of the base class and of its two subclasses.  All fields
    are private and written once, so instances are values; the
    constructor of the variant records the dynamic class. *)
Inductive t : Set :=
| LivingBeingI (name : string) (age : number)
| HumanI (name : string) (age : number) (job : string)
| PlantI (name : string) (age : number) (color : string).

Definition getName (this : t) : string :=
  match this with
  | LivingBeingI n _ | HumanI n _ _ | PlantI n _ _ => n
  end.

Definition getAge (this : t) : number :=
  match this with
  | LivingBeingI _ a | HumanI _ a _ | PlantI _ a _ => a
  end.

Definition new (name : string) (age : number) : t := LivingBeingI name age.

(** The body of [LivingBeing.prototype.breathe]. *)
Definition breathe (this : t) : JS unit := console_log "I'm breathing".
End LivingBeing.

Module Human.
Definition new (name : string) (age : number) (job : string) : LivingBeing.t :=
  LivingBeing.HumanI name age job.

Definition work (this : LivingBeing.t) : JS unit := console_log "I'm working".
End Human.

Module Plant.
Definition new (name : string) (age : number) (color : string) : LivingBeing.t :=
  LivingBeing.PlantI name age color.

Definition photosynthesize (this : LivingBeing.t) : JS unit :=
  console_log "I'm photosynthesizing".

(** The override of line 172. *)
Definition breathe (this : LivingBeing.t) : JS unit := throw ErrorC "I don't breathe".
End Plant.

(** [x.breathe()]: the method is looked up along the prototype chain of
    the receiver's class; only [Plant] overrides it. *)
Definition call_breathe (x : LivingBeing.t) : JS unit :=
  match x with
  | LivingBeing.PlantI _ _ _ => Plant.breathe x
  | LivingBeing.HumanI _ _ _ => LivingBeing.breathe x
  | LivingBeing.LivingBeingI _ _ => LivingBeing.breathe x
  end.

(** ** Dependency inversion: Student, CorrectGentleman (lines 308-341) *)

Module Student.
Definition new : JS loc := alloc (StudentObj StudentC).
Definition learn (this : loc) : JS unit := console_log "I'm learning".
End Student.

Module CorrectJavascriptStudent.
Definition new : JS loc := alloc (StudentObj CorrectJavascriptStudentC).
Definition learn (this : loc) : JS unit := console_log "I'm learning Javascript".
End CorrectJavascriptStudent.

(** [s.learn()], dispatched on the class of the object [s] refers to. *)
Definition call_learn (s : loc) : JS unit :=
  λ w, match heap w !! s with
       | Some (StudentObj StudentC) => Student.learn s w
       | Some (StudentObj CorrectJavascriptStudentC) => CorrectJavascriptStudent.learn s w
       | _ => throw TypeErrorC "learn is not a function" w
       end.

Module CorrectGentleman.
(** The constructor of line 324: the parameter [student] is not used,
    the field receives [new Student()]. *)
Definition new (name : string) (student : loc) : JS loc :=
  s ← Student.new;
  alloc (CorrectGentlemanObj name s).

Definition get_student (this : loc) : JS loc :=
  λ w, match heap w !! this with
       | Some (CorrectGentlemanObj _ s) => (Normal s, w)
       | _ => throw TypeErrorC "Cannot read properties of undefined" w
       end.

Definition getName (this : loc) : JS string :=
  λ w, match heap w !! this with
       | Some (CorrectGentlemanObj n _) => (Normal n, w)
       | _ => throw TypeErrorC "Cannot read properties of undefined" w
       end.

Definition teach (this : loc) : JS unit :=
  s ← get_student this;
  call_learn s.
End CorrectGentleman.

(** The statements at the end of the file (lines 338-341). *)
Definition main : JS unit :=
  student ← Student.new;
  studentJavascript ← CorrectJavascriptStudent.new;
  gentleman ← CorrectGentleman.new "Alan" studentJavascript;
  CorrectGentleman.teach gentleman.

Definition empty_world : World := mkWorld ∅ [].

(** ** Clients of the store: sequences of queries *)

Inductive Query : Set :=
| ByAge (age : number)
| ByName (name : string)
| OlderThanAge (age : number)
| NewerThanAge (age : number).

Definition run_query (this : loc) (q : Query) : JS loc :=
  match q with
  | ByAge age => VideoGameStore.getAllGamesByAge this age
  | ByName name => VideoGameStore.getAllGamesByName this name
  | OlderThanAge age => VideoGameStore.getAllGamesOlderThanAge this age
  | NewerThanAge age => VideoGameStore.getAllGamesNewerThanAge this age
  end.

(** The queries of [qs] issued one after the other on the same store;
    the references they return are collected in order. *)
Fixpoint run_queries (this : loc) (qs : list Query) : JS (list loc) :=
  match qs with
  | [] => mret []
  | q :: qs' =>
      r ← run_query this q;
      rs ← run_queries this qs';
      mret (r :: rs)
  end.

(** The same four queries as inherited by a [BetterVideoGameStore],
    which take the collection as an argument. *)
Definition run_getter_query (this collection : loc) (q : Query) : JS loc :=
  match q with
  | ByAge age => BetterVideoGameStore.getAllGamesByAge this collection age
  | ByName name => BetterVideoGameStore.getAllGamesByName this collection name
  | OlderThanAge age => BetterVideoGameStore.getAllGamesOlderThanAge this collection age
  | NewerThanAge age => BetterVideoGameStore.getAllGamesNewerThanAge this collection age
  end.

(** ** Vocabulary of the statements *)

(** The callback each query hands to [filter]. *)
Definition selector (q : Query) (v : VideoGame.t) : bool :=
  match q with
  | ByAge age => number_strict_eq (VideoGame.getReleaseDate v) age
  | ByName name => string_strict_eq (VideoGame.getName v) name
  | OlderThanAge age => number_lt (VideoGame.getReleaseDate v) age
  | NewerThanAge age => number_gt (VideoGame.getReleaseDate v) age
  end.

(** [picks C idx res]: [res] is made of the records that sit in [C] at
    the positions [idx], and these positions increase strictly. *)
Definition picks (C : list VideoGame.t) (idx : list nat) (res : list VideoGame.t) : Prop :=
  StronglySorted lt idx ∧ Forall2 (λ i v, C !! i = Some v) idx res.

(** [selects P C res]: [res] picks from [C] exactly the positions whose
    record satisfies [P], each once and in the order of [C]. *)
Definition selects (P : VideoGame.t → bool) (C res : list VideoGame.t) : Prop :=
  ∃ idx, picks C idx res ∧ ∀ i v, C !! i = Some v → (i ∈ idx ↔ P v = true).

(** The positions, counted from [k], of the records of [C] satisfying [P]. *)
Fixpoint positions (P : VideoGame.t → bool) (k : nat) (C : list VideoGame.t) : list nat :=
  match C with
  | [] => []
  | v :: C' => if P v then k :: positions P (S k) C' else positions P (S k) C'
  end.

(** In world [w] the object [this] is a store whose field refers to an
    array holding the records [C]. *)
Definition store_of (w : World) (this : loc) (C : list VideoGame.t) : Prop :=
  ∃ a, heap w !! this = Some (VideoGameStoreObj a) ∧ heap w !! a = Some (ArrayObj C).

(** The call completes normally and returns a reference to an array
    whose elements are [res]. *)
Definition returns_array (call : JS loc) (w : World) (res : list VideoGame.t) : Prop :=
  ∃ r w', call w = (Normal r, w') ∧ heap w' !! r = Some (ArrayObj res).

(** The world after [alloc o]. *)
Definition allocated (o : obj) (w : World) : World :=
  mkWorld (<[fresh (dom (heap w)) := o]> (heap w)) (console w).

Definition not_NaN (x : number) : Prop := PrimFloat.is_nan x = false.

(** The collection of the specification's examples. *)
Definition example_games : list VideoGame.t :=
  [ VideoGame.new "Chrono Trigger" 1995%float;
    VideoGame.new "Doom" 1993%float;
    VideoGame.new "Doom II" 1994%float ].

(** The world after [const games = [...]] in the empty world: the
    array sits at address 1. *)
Definition games_world : World := (alloc (ArrayObj example_games) empty_world).2.

(** The world after [new VideoGameStore(games)]: the store sits at
    address 3 (address 2 is the array of the field initialiser). *)
Definition example_world : World := (VideoGameStore.new 1%positive games_world).2.

(** A number is an integer when it is finite and has no fractional
    part ([Number.isInteger]). *)
Definition is_integer (x : number) : bool :=
  match Prim2SF x with
  | S754_zero _ => true
  | S754_finite _ m e => (0 <=? e)%Z || (Z.pos m mod 2 ^ (- e) =? 0)%Z
  | _ => false
  end.

(** ** Interface segregation: the PC and console games (lines 180-275) *)

(** interface PCVideoGame (lines 180-185). *)
Module PCVideoGame.
Class t (T : Type) : Type := {
  play : T → JS unit;
  save : T → JS unit;
  overrideSave : T → JS unit;
  load : T → JS unit
}.
End PCVideoGame.

(** interface VideogameSaving (lines 217-221). *)
Module VideogameSaving.
Class t (T : Type) : Type := {
  save : T → JS unit;
  overrideSave : T → JS unit;
  load : T → JS unit
}.
End VideogameSaving.

(** interface SimplerPCVideoGame (lines 223-225). *)
Module SimplerPCVideoGame.
Class t (T : Type) : Type := {
  play : T → JS unit
}.
End SimplerPCVideoGame.

Module HardcoreVideoGame.
(** The only field; it is private and written once. *)
Record t : Set := mk { difficulty : string }.

(** The constructor of line 190 takes a name and a release date and
    stores neither. *)
Definition new (name : string) (releaseDate : number) (difficulty : string) : t :=
  mk difficulty.

Definition getDifficulty (this : t) : string := difficulty this.

Definition play (this : t) : JS unit :=
  console_log "I'm playing a hardcore video game".

Definition save (this : t) : JS unit :=
  console_log "I'm saving a hardcore video game".

Definition overrideSave (this : t) : JS unit :=
  throw ErrorC "I can't override a save of a hardcore video game".

Definition load (this : t) : JS unit :=
  throw ErrorC "I can't load a hardcore video game".
End HardcoreVideoGame.

(** [class HardcoreVideoGame implements PCVideoGame]. *)
#[export] Instance HardcoreVideoGame_PCVideoGame : PCVideoGame.t HardcoreVideoGame.t := {|
  PCVideoGame.play := HardcoreVideoGame.play;
  PCVideoGame.save := HardcoreVideoGame.save;
  PCVideoGame.overrideSave := HardcoreVideoGame.overrideSave;
  PCVideoGame.load := HardcoreVideoGame.load
|}.

Module CorrectHardcoreVideoGame.
Record t : Set := mk { difficulty : string }.

Definition new (name : string) (releaseDate : number) (difficulty : string) : t :=
  mk difficulty.

Definition getDifficulty (this : t) : string := difficulty this.

Definition play (this : t) : JS unit :=
  console_log "I'm playing a hardcore video game".
End CorrectHardcoreVideoGame.

(** [class CorrectHardcoreVideoGame implements SimplerPCVideoGame]. *)
#[export] Instance CorrectHardcoreVideoGame_SimplerPCVideoGame :
    SimplerPCVideoGame.t CorrectHardcoreVideoGame.t := {|
  SimplerPCVideoGame.play := CorrectHardcoreVideoGame.play
|}.

Module ConsoleVideoGame.
Record t : Set := new { name : string; releaseDate : number }.

Definition getName (this : t) : string := name this.
Definition getReleaseDate (this : t) : number := releaseDate this.

Definition play (this : t) : JS unit :=
  console_log "I'm playing a console video game".

Definition save (this : t) : JS unit :=
  console_log "I'm saving a console video game".

Definition overrideSave (this : t) : JS unit :=
  console_log "I'm overriding a save of a console video game".

Definition load (this : t) : JS unit :=
  console_log "I'm loading a console video game".
End ConsoleVideoGame.

(** [class ConsoleVideoGame implements SimplerPCVideoGame, VideogameSaving]. *)
#[export] Instance ConsoleVideoGame_SimplerPCVideoGame :
    SimplerPCVideoGame.t ConsoleVideoGame.t := {|
  SimplerPCVideoGame.play := ConsoleVideoGame.play
|}.

#[export] Instance ConsoleVideoGame_VideogameSaving :
    VideogameSaving.t ConsoleVideoGame.t := {|
  VideogameSaving.save := ConsoleVideoGame.save;
  VideogameSaving.overrideSave := ConsoleVideoGame.overrideSave;
  VideogameSaving.load := ConsoleVideoGame.load
|}.

(** Typing is structural: an object with the methods of the two small
    interfaces has those of [PCVideoGame]. *)
#[export] Instance split_PCVideoGame (T : Type)
    `{SimplerPCVideoGame.t T} `{VideogameSaving.t T} : PCVideoGame.t T := {|
  PCVideoGame.play := SimplerPCVideoGame.play;
  PCVideoGame.save := VideogameSaving.save;
  PCVideoGame.overrideSave := VideogameSaving.overrideSave;
  PCVideoGame.load := VideogameSaving.load
|}.

(** ** The first Gentleman and its JavascriptStudent (lines 280-304) *)

Module JavascriptStudent.
(** The class has no field. *)
Inductive t : Set := new.

Definition learnJavascript (this : t) : JS unit :=
  console_log "I'm learning Javascript".
End JavascriptStudent.

Module Gentleman.
(** Both fields are private and written once by the constructor. *)
Record t : Set := mk { name : string; student : JavascriptStudent.t }.

Definition new (name : string) : t := mk name JavascriptStudent.new.

Definition getName (this : t) : string := name this.

Definition teachJavascript (this : t) : JS unit :=
  JavascriptStudent.learnJavascript (student this).
End Gentleman.

(** ** More clients *)

(** A caller that changes the contents of an array it holds (by
    [push], [splice], an indexed assignment, ...). *)
Definition array_overwrite (a : loc) (elems : list VideoGame.t) : JS unit :=
  assign a (ArrayObj elems).

(** [getter.q2(getter.q1(collection))]: a query run on the result of
    another. *)
Definition chain_getter_queries (this collection : loc) (q1 q2 : Query) : JS loc :=
  r ← run_getter_query this collection q1;
  run_getter_query this r q2.

(** [for (const x of xs) x.breathe()]. *)
Fixpoint breathe_all (xs : list LivingBeing.t) : JS unit :=
  match xs with
  | [] => mret tt
  | x :: xs' => _ ← call_breathe x; breathe_all xs'
  end.

(** The methods of [PCVideoGame], as a caller names them. *)
Inductive PCMethod : Set := Play | Save | OverrideSave | Load.

Definition call_method {T} `{PCVideoGame.t T} (g : T) (m : PCMethod) : JS unit :=
  match m with
  | Play => PCVideoGame.play g
  | Save => PCVideoGame.save g
  | OverrideSave => PCVideoGame.overrideSave g
  | Load => PCVideoGame.load g
  end.

(** The calls [ms] made one after the other on the game [g]. *)
Fixpoint session {T} `{PCVideoGame.t T} (g : T) (ms : list PCMethod) : JS unit :=
  match ms with
  | [] => mret tt
  | m :: ms' => _ ← call_method g m; session g ms'
  end.

(** [teach()] called [k] times on the same gentleman. *)
Fixpoint teach_times (g : loc) (k : nat) : JS unit :=
  match k with
  | 0 => mret tt
  | S k' => _ ← CorrectGentleman.teach g; teach_times g k'
  end.

(** ** More vocabulary *)

(** The longest prefix of [xs] without an element on which [stop] holds. *)
Fixpoint before_first {A} (stop : A → bool) (xs : list A) : list A :=
  match xs with
  | [] => []
  | x :: xs' => if stop x then [] else x :: before_first stop xs'
  end.

(** The first element of [xs] on which [stop] holds. *)
Fixpoint first_stop {A} (stop : A → bool) (xs : list A) : option A :=
  match xs with
  | [] => None
  | x :: xs' => if stop x then Some x else first_stop stop xs'
  end.

Definition is_plant (x : LivingBeing.t) : bool :=
  match x with
  | LivingBeing.PlantI _ _ _ => true
  | _ => false
  end.

(** The two methods a [HardcoreVideoGame] refuses. *)
Definition refused (m : PCMethod) : bool :=
  match m with
  | OverrideSave | Load => true
  | Play | Save => false
  end.

(** What each class logs, or throws, for each method. *)
Definition hardcore_line (m : PCMethod) : string :=
  match m with
  | Play => "I'm playing a hardcore video game"
  | Save => "I'm saving a hardcore video game"
  | OverrideSave => "I can't override a save of a hardcore video game"
  | Load => "I can't load a hardcore video game"
  end.

Definition console_line (m : PCMethod) : string :=
  match m with
  | Play => "I'm playing a console video game"
  | Save => "I'm saving a console video game"
  | OverrideSave => "I'm overriding a save of a console video game"
  | Load => "I'm loading a console video game"
  end.

(** The completion of a run of calls that stops at the first refusal. *)
Definition completion_of (e : option Error) : Completion unit :=
  match e with
  | None => Normal tt
  | Some e => Throw e
  end.

(** The world [w] with [lines] added to the console. *)
Definition logged (lines : list string) (w : World) : World :=
  mkWorld (heap w) (console w ++ lines).
Arguments logged : simpl never.

(** * Properties *)

(** ** The filter loop *)

Lemma fold_left_filter_step cb O A :
  fold_left (filter_step cb) O A = A ++ List.filter cb O.
Proof.
  revert A. induction O as [|v O IH]; intros A; simpl.
  - by rewrite app_nil_r.
  - rewrite IH. unfold filter_step. destruct (cb v); simpl; [|done].
    by rewrite <- app_assoc.
Qed.

Lemma filter_elems_filter cb O : filter_elems cb O = List.filter cb O.
Proof. unfold filter_elems. by rewrite fold_left_filter_step. Qed.

Lemma positions_ge P k C : Forall (λ i, k ≤ i) (positions P k C).
Proof.
  revert k. induction C as [|v C IH]; intros k; simpl; [constructor|].
  assert (Forall (λ i, k ≤ i) (positions P (S k) C)) as Hk.
  { eapply Forall_impl; [apply IH|]. simpl. lia. }
  destruct (P v); [constructor; [lia|done]|done].
Qed.

Lemma positions_sorted P k C : StronglySorted lt (positions P k C).
Proof.
  revert k. induction C as [|v C IH]; intros k; simpl; [constructor|].
  destruct (P v); [|apply IH].
  constructor; [apply IH|].
  eapply Forall_impl; [apply positions_ge|]. simpl. lia.
Qed.

Lemma positions_lookup P k C :
  Forall2 (λ i v, ∃ j, i = k + j ∧ C !! j = Some v) (positions P k C) (List.filter P C).
Proof.
  revert k. induction C as [|v C IH]; intros k; simpl; [constructor|].
  assert (Forall2 (λ i x, ∃ j, i = k + j ∧ (v :: C) !! j = Some x)
            (positions P (S k) C) (List.filter P C)) as Htl.
  { eapply Forall2_impl; [apply IH|]. intros i x (j & -> & Hj).
    exists (S j). split; [lia|done]. }
  destruct (P v); [|done].
  constructor; [|done]. exists 0. split; [lia|done].
Qed.

Lemma positions_elem P k C j v :
  C !! j = Some v → (k + j ∈ positions P k C ↔ P v = true).
Proof.
  revert k j. induction C as [|x C IH]; intros k j Hj; [done|].
  destruct j as [|j]; simpl in *.
  - injection Hj as ->. replace (k + 0) with k by lia.
    destruct (P v) eqn:HP.
    + split; [done|]. intros _. apply list_elem_of_here.
    + split; [|done]. intros Hin.
      pose proof (positions_ge P (S k) C) as Hge.
      rewrite Forall_forall in Hge. apply Hge in Hin. lia.
  - replace (k + S j) with (S k + j) by lia.
    rewrite <- (IH (S k) j Hj).
    destruct (P x); [|done].
    rewrite elem_of_cons. split; [|by right].
    intros [Heq|Hin]; [lia|done].
Qed.

Lemma selects_filter P C : selects P C (List.filter P C).
Proof.
  exists (positions P 0 C). split; [split|].
  - apply positions_sorted.
  - eapply Forall2_impl; [apply positions_lookup|].
    by intros i v (j & -> & Hj).
  - intros i v Hi. apply (positions_elem P 0 C i v Hi).
Qed.

Lemma StronglySorted_lt_NoDup (l : list nat) : StronglySorted lt l → NoDup l.
Proof.
  induction 1 as [|i l _ IH Hi]; constructor; [|done].
  intros Hin. rewrite Forall_forall in Hi. specialize (Hi i Hin). lia.
Qed.

(** [selects] leaves no freedom: it holds of the filtered list only. *)
Lemma selects_unique P C res : selects P C res → res = List.filter P C.
Proof.
  intros (idx & (Hsorted & Hpick) & Hidx).
  destruct (selects_filter P C) as (idx' & (Hsorted' & Hpick') & Hidx').
  assert (∀ jdx l, Forall2 (λ i v, C !! i = Some v) jdx l →
            ∀ i, i ∈ jdx → is_Some (C !! i)) as Hdef.
  { intros jdx l HF i Hi. induction HF as [|j v jdx l Hj _ IH]; [by apply elem_of_nil in Hi|].
    apply elem_of_cons in Hi as [->|Hi]; [by eexists|by apply IH]. }
  assert (idx = idx') as <-.
  { apply (StronglySorted_unique_strong lt); [lia|done..|].
    apply NoDup_Permutation; [by apply StronglySorted_lt_NoDup..|].
    intros i. split; intros Hi.
    - destruct (Hdef _ _ Hpick i Hi) as [v Hv]. apply (Hidx' i v Hv), (Hidx i v Hv), Hi.
    - destruct (Hdef _ _ Hpick' i Hi) as [v Hv]. apply (Hidx i v Hv), (Hidx' i v Hv), Hi. }
  eapply (Forall2_unique _ idx); [exact Hpick|exact Hpick'|].
  intros i v1 v2 H1 H2. congruence.
Qed.

(** ** Allocation and the runs of the queries *)

Lemma fresh_unused (w : World) : heap w !! fresh (dom (heap w)) = None.
Proof. apply not_elem_of_dom, is_fresh. Qed.

Lemma alloc_run o w : alloc o w = (Normal (fresh (dom (heap w))), allocated o w).
Proof. done. Qed.

Lemma allocated_lookup_new o w : heap (allocated o w) !! fresh (dom (heap w)) = Some o.
Proof. apply lookup_insert_eq. Qed.

(** Allocation leaves every object that already exists as it is. *)
Lemma allocated_lookup_old o w l x :
  heap w !! l = Some x → heap (allocated o w) !! l = Some x.
Proof.
  intros Hl. simpl. rewrite lookup_insert_ne; [done|].
  intros <-. by rewrite fresh_unused in Hl.
Qed.

Lemma Array_filter_run a cb C w :
  heap w !! a = Some (ArrayObj C) →
  Array_filter a cb w =
    (Normal (fresh (dom (heap w))), allocated (ArrayObj (List.filter cb C)) w).
Proof.
  intros Ha. unfold Array_filter. rewrite Ha, alloc_run.
  by rewrite filter_elems_filter.
Qed.

Lemma get_videoGames_run this a w :
  heap w !! this = Some (VideoGameStoreObj a) →
  VideoGameStore.get_videoGames this w = (Normal a, w).
Proof. intros Hthis. unfold VideoGameStore.get_videoGames. by rewrite Hthis. Qed.

(** Each query allocates the filtered array and does nothing else. *)
Lemma run_query_run this q C w :
  store_of w this C →
  run_query this q w =
    (Normal (fresh (dom (heap w))), allocated (ArrayObj (List.filter (selector q) C)) w).
Proof.
  intros (a & Hthis & Ha).
  destruct q; simpl;
    unfold VideoGameStore.getAllGamesByAge, VideoGameStore.getAllGamesByName,
      VideoGameStore.getAllGamesOlderThanAge, VideoGameStore.getAllGamesNewerThanAge,
      mbind, JS_bind;
    rewrite (get_videoGames_run this a w Hthis);
    apply Array_filter_run, Ha.
Qed.

Lemma run_query_returns this q C w :
  store_of w this C →
  returns_array (run_query this q) w (List.filter (selector q) C).
Proof.
  intros Hst. eexists _, _. split; [by apply run_query_run|].
  apply allocated_lookup_new.
Qed.

Lemma store_of_allocated o w this C :
  store_of w this C → store_of (allocated o w) this C.
Proof.
  intros (a & Hthis & Ha). exists a.
  split; by apply allocated_lookup_old.
Qed.

(** The constructor yields a store over the array it is given. *)
Lemma new_store_of a C w :
  heap w !! a = Some (ArrayObj C) →
  ∃ this w', VideoGameStore.new a w = (Normal this, w') ∧ store_of w' this C.
Proof.
  intros Ha. eexists _, _. split; [reflexivity|].
  exists a. simpl. split; [apply lookup_insert_eq|].
  rewrite lookup_insert_ne.
  - apply (allocated_lookup_old _ (allocated (ArrayObj []) w)).
    by apply allocated_lookup_old.
  - intros Heq.
    pose proof (fresh_unused (allocated (ArrayObj []) w)) as Hf.
    simpl in Hf. rewrite Heq in Hf.
    pose proof (allocated_lookup_old (ArrayObj []) w a _ Ha) as Hold.
    simpl in Hold. congruence.
Qed.

Lemma example_store : store_of example_world 3%positive example_games.
Proof. exists 1%positive. split; vm_compute; reflexivity. Qed.

(** ** Comparisons of numbers *)

Lemma compare_cont_swap p q :
  Pos.compare_cont Eq q p = CompOpp (Pos.compare_cont Eq p q).
Proof. apply (Pos.compare_antisym p q). Qed.

Lemma SFcompare_swap x y : SFcompare y x = CompOpp <$> SFcompare x y.
Proof.
  destruct x as [[]|[]| |[] mx ex], y as [[]|[]| |[] my ey]; simpl; try done;
    rewrite (Z.compare_antisym ex ey), (compare_cont_swap mx my);
    destruct (ex ?= ey)%Z; simpl; try done;
    by destruct (Pos.compare_cont Eq mx my).
Qed.

Lemma SFcompare_not_nan x y :
  SFeqb x x = true → SFeqb y y = true → is_Some (SFcompare x y).
Proof. destruct x as [| | |], y as [| | |]; simpl; try done; by eexists. Qed.

Lemma number_lt_not_strict_eq x t : number_lt x t = true → number_strict_eq x t = false.
Proof.
  unfold number_lt, number_strict_eq. rewrite ltb_spec, FloatAxioms.eqb_spec.
  unfold SFltb, SFeqb. by destruct (SFcompare _ _) as [[]|].
Qed.

Lemma number_gt_not_strict_eq x t : number_gt x t = true → number_strict_eq x t = false.
Proof.
  unfold number_gt, number_strict_eq. rewrite ltb_spec, FloatAxioms.eqb_spec.
  unfold SFltb, SFeqb. rewrite (SFcompare_swap (Prim2SF x)).
  by destruct (SFcompare _ _) as [[]|].
Qed.

Lemma number_lt_not_gt x t : number_lt x t = true → number_gt x t = false.
Proof.
  unfold number_lt, number_gt. rewrite !ltb_spec.
  unfold SFltb. rewrite (SFcompare_swap (Prim2SF x)).
  by destruct (SFcompare _ _) as [[]|].
Qed.

(** [===] holds between a number and itself unless it is [NaN], and
    between different numbers only when both are zeros. *)
Lemma SFeqb_true x y :
  SFeqb x y = true → x = y ∨ ∃ s s', x = S754_zero s ∧ y = S754_zero s'.
Proof.
  unfold SFeqb.
  destruct x as [sx|[]| |[] mx ex], y as [sy|[]| |[] my ey]; simpl; try done; eauto;
    destruct (ex ?= ey)%Z eqn:He; try done; apply Z.compare_eq in He as ->;
    destruct (Pos.compare_cont Eq mx my) eqn:Hm; try done;
    apply Pos.compare_eq in Hm as ->; auto.
Qed.

Lemma number_strict_eq_true x y :
  number_strict_eq x y = true →
  x = y ∨ (x = 0%float ∨ x = (-0)%float) ∧ (y = 0%float ∨ y = (-0)%float).
Proof.
  unfold number_strict_eq. rewrite FloatAxioms.eqb_spec.
  assert (∀ z s, Prim2SF z = S754_zero s → z = 0%float ∨ z = (-0)%float) as Hzero.
  { intros z s Hz. rewrite <- (SF2Prim_Prim2SF z), Hz. destruct s; auto. }
  intros [Heq|(s & s' & Hx & Hy)]%SFeqb_true.
  - left. by apply Prim2SF_inj.
  - right. eauto.
Qed.

Lemma number_strict_eq_refl x : not_NaN x → number_strict_eq x x = true.
Proof. unfold not_NaN, is_nan, number_strict_eq. by rewrite negb_false_iff. Qed.

(** Two numbers that are not [NaN] stand in exactly one of the three
    relations. *)
Lemma number_trichotomy x t :
  not_NaN x → not_NaN t →
  (number_lt x t = true ∧ number_strict_eq x t = false ∧ number_gt x t = false) ∨
  (number_lt x t = false ∧ number_strict_eq x t = true ∧ number_gt x t = false) ∨
  (number_lt x t = false ∧ number_strict_eq x t = false ∧ number_gt x t = true).
Proof.
  unfold not_NaN, is_nan, number_lt, number_strict_eq, number_gt.
  rewrite !ltb_spec, !FloatAxioms.eqb_spec, !negb_false_iff.
  intros Hx Ht. destruct (SFcompare_not_nan _ _ Hx Ht) as [c Hc].
  unfold SFltb, SFeqb. rewrite (SFcompare_swap (Prim2SF x)), Hc.
  destruct c; simpl; auto.
Qed.

Lemma SFcompare_refl m e s : SFcompare (S754_finite s m e) (S754_finite s m e) = Some Eq.
Proof.
  simpl. rewrite Z.compare_refl, Pos.compare_cont_refl. by destruct s.
Qed.

(** Integers, and more generally all finite numbers, are not [NaN]. *)
Lemma is_integer_not_NaN x : is_integer x = true → not_NaN x.
Proof.
  unfold is_integer, not_NaN, is_nan. rewrite FloatAxioms.eqb_spec, negb_false_iff.
  unfold SFeqb. destruct (Prim2SF x) as [| | |s m e]; try done.
  intros _. by rewrite SFcompare_refl.
Qed.

Example is_integer_1994 : is_integer 1994%float = true.
Proof. reflexivity. Qed.

Example is_integer_half : is_integer 0.5%float = false.
Proof. reflexivity. Qed.

Example is_integer_NaN : is_integer nan = false.
Proof. reflexivity. Qed.

Lemma filter_Forall (P : VideoGame.t → bool) C : Forall (λ v, P v = true) (List.filter P C).
Proof. apply Forall_forall. intros v Hv%list_elem_of_In. by apply filter_In in Hv as [_ ?]. Qed.

(** What a query of the store returns, in the terms of the statements. *)
Lemma run_query_spec this q C w :
  store_of w this C →
  ∃ res, returns_array (run_query this q) w res
    ∧ res = List.filter (selector q) C
    ∧ Forall (λ v, selector q v = true) res
    ∧ selects (selector q) C res.
Proof.
  intros Hst. exists (List.filter (selector q) C).
  split; [by apply run_query_returns|].
  split; [done|]. split; [apply filter_Forall|apply selects_filter].
Qed.

(** ** The four queries of VideoGameStore *)

(** C1. [getAllGamesByAge(m)] on a store over the collection [C]
    returns exactly the records of [C] whose release date is [=== m]:
    every returned record has that release date (it is the number [m]
    itself, or the two are the zeros [0] and [-0]), and the result
    picks from [C] the positions of such records, each once, in the
    order of [C].  The statement holds for every number [m], integers
    included.  On the example collection and [m = 1994] the result is
    the single record ("Doom II", 1994). *)
Theorem getAllGamesByAge_exact (w : World) (this : loc) (C : list VideoGame.t) (m : number) :
  store_of w this C →
  ∃ res, returns_array (VideoGameStore.getAllGamesByAge this m) w res
    ∧ Forall (λ v, number_strict_eq (VideoGame.releaseDate v) m = true) res
    ∧ Forall (λ v, VideoGame.releaseDate v = m ∨
                   (VideoGame.releaseDate v = 0%float ∨ VideoGame.releaseDate v = (-0)%float)
                   ∧ (m = 0%float ∨ m = (-0)%float)) res
    ∧ selects (λ v, number_strict_eq (VideoGame.releaseDate v) m) C res
    ∧ (C = example_games → m = 1994%float → res = [VideoGame.new "Doom II" 1994%float]).
Proof.
  intros Hst.
  destruct (run_query_spec this (ByAge m) C w Hst) as (res & Hret & Hres & Hall & Hsel).
  exists res. split; [done|]. split; [done|]. split.
  - eapply Forall_impl; [exact Hall|]. intros v. apply number_strict_eq_true.
  - split; [done|]. intros -> ->. by rewrite Hres.
Qed.

Lemma getAllGamesByAge_exact_witness :
  ∃ res, returns_array (VideoGameStore.getAllGamesByAge 3%positive 1994%float) example_world res
    ∧ res = [VideoGame.new "Doom II" 1994%float].
Proof.
  destruct (getAllGamesByAge_exact example_world 3%positive example_games 1994%float)
    as (res & Hret & _ & _ & _ & Hex).
  - exists 1%positive. split; vm_compute; reflexivity.
  - exists res. split; [exact Hret|]. by apply Hex.
Defined.

(** C4. [getAllGamesOlderThanAge(t)] returns exactly the records of [C]
    whose release date is strictly less than [t], in the order of [C];
    no returned record has a release date equal to [t].  On the example
    collection and [t = 1994] the result is the single record
    ("Doom", 1993). *)
Theorem getAllGamesOlderThanAge_exact (w : World) (this : loc) (C : list VideoGame.t) (t : number) :
  store_of w this C →
  ∃ res, returns_array (VideoGameStore.getAllGamesOlderThanAge this t) w res
    ∧ Forall (λ v, number_lt (VideoGame.releaseDate v) t = true) res
    ∧ selects (λ v, number_lt (VideoGame.releaseDate v) t) C res
    ∧ Forall (λ v, number_strict_eq (VideoGame.releaseDate v) t = false) res
    ∧ (C = example_games → t = 1994%float → res = [VideoGame.new "Doom" 1993%float]).
Proof.
  intros Hst.
  destruct (run_query_spec this (OlderThanAge t) C w Hst) as (res & Hret & Hres & Hall & Hsel).
  exists res. repeat split; try done.
  - eapply Forall_impl; [exact Hall|]. intros v. apply number_lt_not_strict_eq.
  - intros -> ->. by rewrite Hres.
Qed.

Lemma getAllGamesOlderThanAge_exact_witness :
  ∃ res, returns_array (VideoGameStore.getAllGamesOlderThanAge 3%positive 1994%float) example_world res
    ∧ res = [VideoGame.new "Doom" 1993%float].
Proof.
  destruct (getAllGamesOlderThanAge_exact example_world 3%positive example_games 1994%float)
    as (res & Hret & _ & _ & _ & Hex).
  - exists 1%positive. split; vm_compute; reflexivity.
  - exists res. split; [exact Hret|]. by apply Hex.
Defined.

(** C5. [getAllGamesNewerThanAge(t)] returns exactly the records of [C]
    whose release date is strictly greater than [t], in the order of
    [C]; no returned record has a release date equal to [t].  On the
    example collection and [t = 1993] the result is
    ("Chrono Trigger", 1995) followed by ("Doom II", 1994). *)
Theorem getAllGamesNewerThanAge_exact (w : World) (this : loc) (C : list VideoGame.t) (t : number) :
  store_of w this C →
  ∃ res, returns_array (VideoGameStore.getAllGamesNewerThanAge this t) w res
    ∧ Forall (λ v, number_gt (VideoGame.releaseDate v) t = true) res
    ∧ selects (λ v, number_gt (VideoGame.releaseDate v) t) C res
    ∧ Forall (λ v, number_strict_eq (VideoGame.releaseDate v) t = false) res
    ∧ (C = example_games → t = 1993%float →
       res = [VideoGame.new "Chrono Trigger" 1995%float; VideoGame.new "Doom II" 1994%float]).
Proof.
  intros Hst.
  destruct (run_query_spec this (NewerThanAge t) C w Hst) as (res & Hret & Hres & Hall & Hsel).
  exists res. repeat split; try done.
  - eapply Forall_impl; [exact Hall|]. intros v. apply number_gt_not_strict_eq.
  - intros -> ->. by rewrite Hres.
Qed.

Lemma getAllGamesNewerThanAge_exact_witness :
  ∃ res, returns_array (VideoGameStore.getAllGamesNewerThanAge 3%positive 1993%float) example_world res
    ∧ res = [VideoGame.new "Chrono Trigger" 1995%float; VideoGame.new "Doom II" 1994%float].
Proof.
  destruct (getAllGamesNewerThanAge_exact example_world 3%positive example_games 1993%float)
    as (res & Hret & _ & _ & _ & Hex).
  - exists 1%positive. split; vm_compute; reflexivity.
  - exists res. split; [exact Hret|]. by apply Hex.
Defined.

Lemma string_length_app s t :
  String.length (s +:+ t) = String.length s + String.length t.
Proof. induction s as [|c s IH]; simpl; [done|]. by rewrite IH. Qed.

Lemma string_length_0 s : String.length s = 0 → s = "".
Proof. by destruct s. Qed.

(** A string that contains [n] and is equal to [n] has nothing around it. *)
Lemma string_around_empty n pre suf : n = pre +:+ n +:+ suf → pre = "" ∧ suf = "".
Proof.
  intros Heq. apply (f_equal String.length) in Heq.
  rewrite !string_length_app in Heq.
  split; apply string_length_0; lia.
Qed.

(** C6. [getAllGamesByName(n)] returns exactly the records of [C]
    whose name is the string [n], in the order of [C].  A record whose
    name has [n] as a proper prefix, suffix or inner part is not
    returned.  On the example collection and [n = "Doom"] the result is
    the single record ("Doom", 1993), without ("Doom II", 1994). *)
Theorem getAllGamesByName_exact (w : World) (this : loc) (C : list VideoGame.t) (n : string) :
  store_of w this C →
  ∃ res, returns_array (VideoGameStore.getAllGamesByName this n) w res
    ∧ Forall (λ v, VideoGame.name v = n) res
    ∧ selects (λ v, string_strict_eq (VideoGame.name v) n) C res
    ∧ (∀ v pre suf, v ∈ res → VideoGame.name v = pre +:+ n +:+ suf → pre = "" ∧ suf = "")
    ∧ (C = example_games → n = "Doom" → res = [VideoGame.new "Doom" 1993%float]).
Proof.
  intros Hst.
  destruct (run_query_spec this (ByName n) C w Hst) as (res & Hret & Hres & Hall & Hsel).
  assert (Forall (λ v, VideoGame.name v = n) res) as Hname.
  { eapply Forall_impl; [exact Hall|]. intros v. apply String.eqb_eq. }
  exists res. split; [done|]. split; [done|]. split; [done|]. split.
  - intros v pre suf Hv Hcontains.
    rewrite Forall_forall in Hname. rewrite (Hname v Hv) in Hcontains.
    by apply (string_around_empty n pre suf).
  - intros -> ->. by rewrite Hres.
Qed.

Lemma getAllGamesByName_exact_witness :
  ∃ res, returns_array (VideoGameStore.getAllGamesByName 3%positive "Doom") example_world res
    ∧ res = [VideoGame.new "Doom" 1993%float].
Proof.
  destruct (getAllGamesByName_exact example_world 3%positive example_games "Doom")
    as (res & Hret & _ & _ & _ & Hex).
  - exists 1%positive. split; vm_compute; reflexivity.
  - exists res. split; [exact Hret|]. by apply Hex.
Defined.

(** ** The three numeric queries partition the collection *)

Lemma picks_positions P C : picks C (positions P 0 C) (List.filter P C).
Proof.
  split; [apply positions_sorted|].
  eapply Forall2_impl; [apply positions_lookup|].
  by intros i v (j & -> & Hj).
Qed.

Lemma positions_elem_0 P C i v :
  C !! i = Some v → (i ∈ positions P 0 C ↔ P v = true).
Proof. apply (positions_elem P 0 C i v). Qed.

(** Three predicates of which every record satisfies exactly one split
    a list into three filtered parts. *)
Lemma filter3_Permutation (P Q R : VideoGame.t → bool) C :
  Forall (λ v, (P v = true ∧ Q v = false ∧ R v = false) ∨
               (P v = false ∧ Q v = true ∧ R v = false) ∨
               (P v = false ∧ Q v = false ∧ R v = true)) C →
  List.filter P C ++ List.filter Q C ++ List.filter R C ≡ₚ C.
Proof.
  induction 1 as [|v C Hv _ IH]; simpl; [done|].
  destruct Hv as [(-> & -> & ->)|[(-> & -> & ->)|(-> & -> & ->)]]; simpl.
  - by constructor.
  - rewrite <- Permutation_middle. by constructor.
  - rewrite app_assoc, <- Permutation_middle, <- app_assoc. by constructor.
Qed.

(** A record whose release date is [NaN] is selected by none of the
    three numeric queries, whatever the threshold: this is why the
    partition below is stated for release dates that are numbers in the
    ordinary sense, as the integer years of the specification are. *)
Example NaN_release_date_unselected (t : number) :
  selector (OlderThanAge t) (VideoGame.new "x" nan) = false
  ∧ selector (ByAge t) (VideoGame.new "x" nan) = false
  ∧ selector (NewerThanAge t) (VideoGame.new "x" nan) = false.
Proof.
  simpl. unfold number_lt, number_strict_eq, number_gt. simpl.
  rewrite !ltb_spec, FloatAxioms.eqb_spec.
  change (Prim2SF nan) with S754_nan.
  unfold SFltb, SFeqb. simpl. by destruct (Prim2SF t).
Qed.

(** C2. For a store over a collection [C] whose release dates are not
    [NaN] (integers never are, see [is_integer_not_NaN]) and a threshold
    [t] that is not [NaN], the results of [getAllGamesOlderThanAge(t)],
    [getAllGamesByAge(t)] and [getAllGamesNewerThanAge(t)] partition
    [C]: each result picks positions of [C], every position of [C] is
    picked by exactly one of the three, and the three results together
    are a rearrangement of [C]. *)
Theorem queries_partition (w : World) (this : loc) (C : list VideoGame.t) (t : number) :
  store_of w this C →
  Forall (λ v, not_NaN (VideoGame.releaseDate v)) C →
  not_NaN t →
  ∃ older equal newer io ie inw,
    returns_array (VideoGameStore.getAllGamesOlderThanAge this t) w older
    ∧ returns_array (VideoGameStore.getAllGamesByAge this t) w equal
    ∧ returns_array (VideoGameStore.getAllGamesNewerThanAge this t) w newer
    ∧ picks C io older ∧ picks C ie equal ∧ picks C inw newer
    ∧ (∀ i, i < length C →
         ((i ∈ io) ∧ (i ∉ ie) ∧ (i ∉ inw)) ∨
         ((i ∉ io) ∧ (i ∈ ie) ∧ (i ∉ inw)) ∨
         ((i ∉ io) ∧ (i ∉ ie) ∧ (i ∈ inw)))
    ∧ older ++ equal ++ newer ≡ₚ C.
Proof.
  intros Hst HC Ht.
  set (P := selector (OlderThanAge t)).
  set (Q := selector (ByAge t)).
  set (R := selector (NewerThanAge t)).
  assert (∀ v, v ∈ C →
            (P v = true ∧ Q v = false ∧ R v = false) ∨
            (P v = false ∧ Q v = true ∧ R v = false) ∨
            (P v = false ∧ Q v = false ∧ R v = true)) as Hone.
  { intros v Hv. rewrite Forall_forall in HC.
    apply (number_trichotomy _ t (HC v Hv) Ht). }
  exists (List.filter P C), (List.filter Q C), (List.filter R C),
    (positions P 0 C), (positions Q 0 C), (positions R 0 C).
  split; [apply (run_query_returns this (OlderThanAge t) C w Hst)|].
  split; [apply (run_query_returns this (ByAge t) C w Hst)|].
  split; [apply (run_query_returns this (NewerThanAge t) C w Hst)|].
  split; [apply picks_positions|].
  split; [apply picks_positions|].
  split; [apply picks_positions|].
  split.
  - intros i Hi. destruct (lookup_lt_is_Some_2 C i Hi) as [v Hv].
    rewrite !(positions_elem_0 _ C i v Hv).
    destruct (Hone v (list_elem_of_lookup_2 _ _ _ Hv))
      as [(-> & -> & ->)|[(-> & -> & ->)|(-> & -> & ->)]]; auto.
  - apply filter3_Permutation, Forall_forall, Hone.
Qed.

Lemma queries_partition_witness :
  ∃ older equal newer,
    returns_array (VideoGameStore.getAllGamesOlderThanAge 3%positive 1994%float) example_world older
    ∧ returns_array (VideoGameStore.getAllGamesByAge 3%positive 1994%float) example_world equal
    ∧ returns_array (VideoGameStore.getAllGamesNewerThanAge 3%positive 1994%float) example_world newer
    ∧ older ++ equal ++ newer ≡ₚ example_games.
Proof.
  destruct (queries_partition example_world 3%positive example_games 1994%float)
    as (older & equal & newer & _ & _ & _ & Ho & He & Hn & _ & _ & _ & _ & Hperm).
  - exists 1%positive. split; vm_compute; reflexivity.
  - repeat constructor.
  - reflexivity.
  - by exists older, equal, newer.
Defined.

(** ** Queries leave the world as it was *)

Lemma allocated_unused_old o w l :
  heap (allocated o w) !! l = None → heap w !! l = None.
Proof.
  intros Hnew. destruct (heap w !! l) as [x|] eqn:Hl; [|done].
  by rewrite (allocated_lookup_old o w l x Hl) in Hnew.
Qed.

(** C7. Whatever sequence of queries runs on a store over [C], every
    query completes, all objects that existed before (the store, hence
    its [videoGames] field, and the array it refers to) are still what
    they were, nothing is logged, each returned reference is a new one,
    different from every earlier object and from the other results,
    and the array it refers to picks from [C] the positions selected by
    the query, each once and in the order of [C] (so records found
    several times in [C] are found as many times in the result). *)
Theorem queries_do_not_mutate (w : World) (this : loc) (C : list VideoGame.t) (qs : list Query) :
  store_of w this C →
  ∃ rs w', run_queries this qs w = (Normal rs, w')
    ∧ (∀ l o, heap w !! l = Some o → heap w' !! l = Some o)
    ∧ store_of w' this C
    ∧ console w' = console w
    ∧ Forall (λ r, heap w !! r = None) rs
    ∧ NoDup rs
    ∧ Forall2 (λ q r, ∃ res, heap w' !! r = Some (ArrayObj res)
                              ∧ selects (selector q) C res) qs rs.
Proof.
  revert w. induction qs as [|q qs IH]; intros w Hst.
  - exists [], w. repeat split; try done; constructor.
  - set (o := ArrayObj (List.filter (selector q) C)).
    destruct (IH (allocated o w) (store_of_allocated o w this C Hst))
      as (rs & w' & Hrun & Hframe & Hst' & Hcon & Hnew & Hnd & Hres).
    exists (fresh (dom (heap w)) :: rs), w'.
    split.
    { simpl. unfold mbind, JS_bind.
      rewrite (run_query_run this q C w Hst). fold o.
      unfold mbind, JS_bind in Hrun. by rewrite Hrun. }
    split. { intros l x Hl. by apply Hframe, allocated_lookup_old. }
    split; [done|]. split; [done|].
    split.
    { constructor; [apply fresh_unused|].
      eapply Forall_impl; [exact Hnew|]. intros r. apply allocated_unused_old. }
    split.
    { constructor; [|done]. intros Hin.
      rewrite Forall_forall in Hnew. specialize (Hnew _ Hin).
      by rewrite allocated_lookup_new in Hnew. }
    constructor; [|done].
    exists (List.filter (selector q) C).
    split; [apply Hframe, allocated_lookup_new|apply selects_filter].
Qed.

Lemma queries_do_not_mutate_witness :
  ∃ rs w', run_queries 3%positive [OlderThanAge 1994%float; ByName "Doom"; OlderThanAge 1994%float]
             example_world = (Normal rs, w')
    ∧ store_of w' 3%positive example_games
    ∧ NoDup rs.
Proof.
  destruct (queries_do_not_mutate example_world 3%positive example_games
              [OlderThanAge 1994%float; ByName "Doom"; OlderThanAge 1994%float])
    as (rs & w' & Hrun & _ & Hst & _ & _ & Hnd & _).
  - exists 1%positive. split; vm_compute; reflexivity.
  - by exists rs, w'.
Defined.

(** C8. On a store over any collection every query, with any argument,
    completes normally and returns an array, so no query signals an
    error; when the collection is empty the returned array is empty. *)
Theorem queries_total_and_empty (w : World) (this : loc) (C : list VideoGame.t) (q : Query) :
  store_of w this C →
  ∃ r w' res, run_query this q w = (Normal r, w')
    ∧ heap w' !! r = Some (ArrayObj res)
    ∧ (C = [] → res = []).
Proof.
  intros Hst. eexists _, _, _.
  split; [apply (run_query_run this q C w Hst)|].
  split; [apply allocated_lookup_new|].
  by intros ->.
Qed.

Lemma queries_total_and_empty_witness :
  ∃ r w', run_query 1%positive (NewerThanAge 0%float)
            (mkWorld {[ 1%positive := VideoGameStoreObj 2%positive;
                        2%positive := ArrayObj [] ]} []) = (Normal r, w')
    ∧ heap w' !! r = Some (ArrayObj []).
Proof.
  destruct (queries_total_and_empty
              (mkWorld {[ 1%positive := VideoGameStoreObj 2%positive;
                          2%positive := ArrayObj [] ]} [])
              1%positive [] (NewerThanAge 0%float))
    as (r & w' & res & Hrun & Hr & Hempty).
  - exists 2%positive. split; reflexivity.
  - exists r, w'. split; [exact Hrun|]. by rewrite <- (Hempty eq_refl).
Defined.

(** ** BetterVideoGameStore: the queries read their argument only *)

Lemma run_getter_query_filter this coll q :
  run_getter_query this coll q = Array_filter coll (selector q).
Proof. by destruct q. Qed.

(** The world [BetterVideoGameStore.new c] leaves behind: the array of
    the field initialiser, then the store with its field set to [c]. *)
Lemma BetterVideoGameStore_new_run c w :
  let w1 := allocated (ArrayObj []) w in
  let this := fresh (dom (heap w1)) in
  BetterVideoGameStore.new c w =
    (Normal this, mkWorld (<[this := BetterVideoGameStoreObj c]> (heap w1)) (console w)).
Proof.
  intros w1 this. unfold BetterVideoGameStore.new, mbind, JS_bind, mret, JS_ret.
  rewrite alloc_run. fold w1. rewrite alloc_run. unfold assign, allocated. simpl.
  fold this. by rewrite insert_insert_eq.
Qed.

(** C9. Take two stores built by [new BetterVideoGameStore(c0)] and
    [new BetterVideoGameStore(c0')] from the same world, and call the
    same query with the same argument collection [coll], an array
    holding the records [K].  Both calls return the same reference to a
    new array with the same elements, namely the records the query
    selects from [K]; and on any two receivers a query is the same
    computation.  The collection given to the constructor plays no
    part. *)
Theorem BetterVideoGameStore_query_ignores_field
    (w : World) (c0 c0' coll : loc) (K : list VideoGame.t) (q : Query) :
  heap w !! coll = Some (ArrayObj K) →
  ∃ r res w1 w1',
    (this ← BetterVideoGameStore.new c0; run_getter_query this coll q) w = (Normal r, w1)
    ∧ (this ← BetterVideoGameStore.new c0'; run_getter_query this coll q) w = (Normal r, w1')
    ∧ heap w1 !! r = Some (ArrayObj res)
    ∧ heap w1' !! r = Some (ArrayObj res)
    ∧ selects (selector q) K res
    ∧ (∀ this this', run_getter_query this coll q = run_getter_query this' coll q).
Proof.
  intros Hcoll.
  set (wi := allocated (ArrayObj []) w).
  set (this := fresh (dom (heap wi))).
  set (built := λ c, mkWorld (<[this := BetterVideoGameStoreObj c]> (heap wi)) (console w)).
  assert (∀ c, heap (built c) !! coll = Some (ArrayObj K)) as Hbuilt.
  { intros c. simpl. rewrite lookup_insert_ne.
    - by apply allocated_lookup_old.
    - intros Heq. pose proof (fresh_unused wi) as Hf.
      pose proof (allocated_lookup_old (ArrayObj []) w coll _ Hcoll) as Hold.
      fold wi in Hold. fold this in Hf. rewrite Heq in Hf. congruence. }
  assert (∀ c, fresh (dom (heap (built c))) = fresh ({[this]} ∪ dom (heap wi))) as Hdom.
  { intros c. simpl. by rewrite dom_insert_L. }
  assert (∀ c, (this ← BetterVideoGameStore.new c; run_getter_query this coll q) w =
               (Normal (fresh ({[this]} ∪ dom (heap wi))),
                allocated (ArrayObj (List.filter (selector q) K)) (built c))) as Hrun.
  { intros c. unfold mbind at 1. unfold JS_bind.
    rewrite (BetterVideoGameStore_new_run c w). fold wi this (built c).
    rewrite run_getter_query_filter, (Array_filter_run coll _ K _ (Hbuilt c)).
    by rewrite Hdom. }
  exists (fresh ({[this]} ∪ dom (heap wi))), (List.filter (selector q) K),
    (allocated (ArrayObj (List.filter (selector q) K)) (built c0)),
    (allocated (ArrayObj (List.filter (selector q) K)) (built c0')).
  split; [apply (Hrun c0)|]. split; [apply (Hrun c0')|].
  split. { rewrite <- (Hdom c0). apply allocated_lookup_new. }
  split. { rewrite <- (Hdom c0'). apply allocated_lookup_new. }
  split; [apply selects_filter|].
  intros this1 this2. by rewrite !run_getter_query_filter.
Qed.

Lemma BetterVideoGameStore_query_ignores_field_witness :
  ∃ r res w1 w1',
    (this ← BetterVideoGameStore.new 1%positive; run_getter_query this 1%positive (ByName "Doom"))
      games_world = (Normal r, w1)
    ∧ (this ← BetterVideoGameStore.new 7%positive; run_getter_query this 1%positive (ByName "Doom"))
        games_world = (Normal r, w1')
    ∧ heap w1 !! r = Some (ArrayObj res)
    ∧ heap w1' !! r = Some (ArrayObj res).
Proof.
  destruct (BetterVideoGameStore_query_ignores_field games_world 1%positive 7%positive
              1%positive example_games (ByName "Doom"))
    as (r & res & w1 & w1' & H1 & H2 & H3 & H4 & _).
  - vm_compute. reflexivity.
  - by exists r, res, w1, w1'.
Defined.

(** ** Plant.breathe throws, LivingBeing.breathe does not *)

(** C10. For every plant, [breathe()] ends by throwing an [Error] with
    the message "I don't breathe", with no other effect, so it never
    returns normally.  The method body of [LivingBeing] logs a line and
    returns for every instance, and this is the method a plain
    [LivingBeing] and a [Human] run. *)
Theorem Plant_breathe_throws
    (name : string) (age : number) (color job : string) (x : LivingBeing.t) (w : World) :
  call_breathe (Plant.new name age color) w = (Throw (mkError ErrorC "I don't breathe"), w)
  ∧ LivingBeing.breathe x w = (Normal tt, mkWorld (heap w) (console w ++ ["I'm breathing"%string]))
  ∧ call_breathe (LivingBeing.new name age) w =
      (Normal tt, mkWorld (heap w) (console w ++ ["I'm breathing"%string]))
  ∧ call_breathe (Human.new name age job) w =
      (Normal tt, mkWorld (heap w) (console w ++ ["I'm breathing"%string])).
Proof. done. Qed.

(** ** CorrectGentleman keeps a student of its own *)

Example main_logs :
  (main empty_world).1 = Normal tt ∧ console (main empty_world).2 = ["I'm learning"%string].
Proof. split; vm_compute; reflexivity. Qed.

(** C3. Pass any name [n] and any student object [s], of either class,
    to the constructor of [CorrectGentleman].  The new object's
    [student] field refers to a [Student] allocated by the constructor
    itself, at an address that was unused before and so differs from
    [s]; and [teach()] then runs [Student]'s [learn], logging
    "I'm learning", whatever the class of [s]. *)
Theorem CorrectGentleman_uses_default_student
    (w : World) (n : string) (s : loc) (cls : StudentClass) :
  heap w !! s = Some (StudentObj cls) →
  ∃ g s' w', CorrectGentleman.new n s w = (Normal g, w')
    ∧ heap w' !! g = Some (CorrectGentlemanObj n s')
    ∧ heap w !! s' = None
    ∧ s' ≠ s
    ∧ heap w' !! s' = Some (StudentObj StudentC)
    ∧ CorrectGentleman.teach g w' =
        (Normal tt, mkWorld (heap w') (console w' ++ ["I'm learning"%string])).
Proof.
  intros Hs.
  set (ws := allocated (StudentObj StudentC) w).
  set (s' := fresh (dom (heap w))).
  set (o := CorrectGentlemanObj n s').
  assert (heap (allocated o ws) !! s' = Some (StudentObj StudentC)) as Hs'.
  { apply allocated_lookup_old, allocated_lookup_new. }
  exists (fresh (dom (heap ws))), s', (allocated o ws).
  split; [done|].
  split; [apply allocated_lookup_new|].
  split; [apply fresh_unused|].
  split. { intros Heq. pose proof (fresh_unused w) as Hf. fold s' in Hf. congruence. }
  split; [exact Hs'|].
  unfold CorrectGentleman.teach, mbind, JS_bind, CorrectGentleman.get_student.
  rewrite (allocated_lookup_new o ws). unfold call_learn, o. cbv iota beta.
  fold o. by rewrite Hs'.
Qed.

Lemma CorrectGentleman_uses_default_student_witness :
  ∃ g s' w', CorrectGentleman.new "Alan" 2%positive
               (CorrectJavascriptStudent.new (Student.new empty_world).2).2 = (Normal g, w')
    ∧ s' ≠ 2%positive
    ∧ heap w' !! s' = Some (StudentObj StudentC)
    ∧ CorrectGentleman.teach g w' =
        (Normal tt, mkWorld (heap w') (console w' ++ ["I'm learning"%string])).
Proof.
  destruct (CorrectGentleman_uses_default_student
              (CorrectJavascriptStudent.new (Student.new empty_world).2).2
              "Alan" 2%positive CorrectJavascriptStudentC)
    as (g & s' & w' & Hnew & _ & _ & Hne & Hs' & Hteach).
  - vm_compute. reflexivity.
  - by exists g, s', w'.
Defined.

(** * Further properties of the code *)

(** ** The store and the array it is built on *)

(** The world [VideoGameStore.new a] leaves behind. *)
Lemma VideoGameStore_new_run a w :
  let w1 := allocated (ArrayObj []) w in
  let this := fresh (dom (heap w1)) in
  VideoGameStore.new a w =
    (Normal this, mkWorld (<[this := VideoGameStoreObj a]> (heap w1)) (console w)).
Proof.
  intros w1 this. unfold VideoGameStore.new, mbind, JS_bind, mret, JS_ret.
  rewrite alloc_run. fold w1. rewrite alloc_run. unfold assign, allocated. simpl.
  fold this. by rewrite insert_insert_eq.
Qed.

(** Overwriting an object other than the store and its array keeps the
    store what it is. *)
Lemma store_of_insert_other w this C l o :
  store_of w this C → heap w !! l = None →
  store_of (mkWorld (<[l := o]> (heap w)) (console w)) this C.
Proof.
  intros (a & Hthis & Ha) Hl. exists a. simpl.
  split; (rewrite lookup_insert_ne; [done|congruence]).
Qed.

(** X1. A query of [VideoGameStore] is the query of the same name of
    [VideoGameStoreGetter] applied to the array the store's field
    refers to: same completion, same returned reference, same world
    afterwards, whatever the receiver of the getter is. *)
Theorem store_query_is_getter_query (w : World) (this a recv : loc) (q : Query) :
  heap w !! this = Some (VideoGameStoreObj a) →
  run_query this q w = run_getter_query recv a q w.
Proof.
  intros Hthis. rewrite run_getter_query_filter.
  destruct q; simpl;
    unfold VideoGameStore.getAllGamesByAge, VideoGameStore.getAllGamesByName,
      VideoGameStore.getAllGamesOlderThanAge, VideoGameStore.getAllGamesNewerThanAge,
      mbind, JS_bind;
    by rewrite (get_videoGames_run this a w Hthis).
Qed.

Lemma store_query_is_getter_query_witness :
  run_query 3%positive (ByName "Doom") example_world =
  run_getter_query 9%positive 1%positive (ByName "Doom") example_world.
Proof.
  apply (store_query_is_getter_query example_world 3%positive 1%positive 9%positive).
  vm_compute. reflexivity.
Defined.

(** X2. The constructor never fails and makes no copy: it returns a
    new store whose field is the very reference it was given, it
    allocates that store and the empty array of the field initialiser
    and nothing else, it leaves every earlier object as it was and it
    logs nothing. *)
Theorem VideoGameStore_new_frame (w : World) (a : loc) :
  ∃ this init w', VideoGameStore.new a w = (Normal this, w')
    ∧ heap w !! this = None ∧ heap w !! init = None ∧ this ≠ init
    ∧ heap w' !! this = Some (VideoGameStoreObj a)
    ∧ heap w' !! init = Some (ArrayObj [])
    ∧ (∀ l, l ≠ this → l ≠ init → heap w' !! l = heap w !! l)
    ∧ console w' = console w.
Proof.
  set (w1 := allocated (ArrayObj []) w).
  set (init := fresh (dom (heap w))).
  set (this := fresh (dom (heap w1))).
  assert (heap w1 !! this = None) as Hthis by apply fresh_unused.
  assert (heap w1 !! init = Some (ArrayObj [])) as Hinit by apply allocated_lookup_new.
  assert (this ≠ init) as Hne by congruence.
  exists this, init, (mkWorld (<[this := VideoGameStoreObj a]> (heap w1)) (console w)).
  split; [apply VideoGameStore_new_run|].
  split; [by apply (allocated_unused_old (ArrayObj []))|].
  split; [apply fresh_unused|]. split; [done|]. simpl.
  split; [apply lookup_insert_eq|].
  split; [by rewrite lookup_insert_ne|].
  split; [|done].
  intros l Hl1 Hl2. by rewrite !lookup_insert_ne.
Qed.

(** X3. The store shares the array with its creator.  Build a store on
    the array [a], then change the contents of [a] to [C']: every query
    made afterwards returns the records it selects from [C'], each once
    and in the order of [C']. *)
Theorem store_sees_array_changes
    (w : World) (a : loc) (C C' : list VideoGame.t) (q : Query) :
  heap w !! a = Some (ArrayObj C) →
  ∃ res, returns_array
           (this ← VideoGameStore.new a; _ ← array_overwrite a C'; run_query this q) w res
    ∧ selects (selector q) C' res.
Proof.
  intros Ha.
  set (w1 := allocated (ArrayObj []) w).
  set (this := fresh (dom (heap w1))).
  set (w2 := mkWorld (<[this := VideoGameStoreObj a]> (heap w1)) (console w)).
  set (w3 := mkWorld (<[a := ArrayObj C']> (heap w2)) (console w2)).
  assert (this ≠ a) as Hne.
  { intros Heq. pose proof (fresh_unused w1) as Hf. fold this in Hf.
    pose proof (allocated_lookup_old (ArrayObj []) w a _ Ha) as Hold.
    fold w1 in Hold. congruence. }
  assert (store_of w3 this C') as Hst.
  { exists a. simpl. split; [|apply lookup_insert_eq].
    rewrite lookup_insert_ne; [apply lookup_insert_eq|done]. }
  exists (List.filter (selector q) C'). split; [|apply selects_filter].
  destruct (run_query_returns this q C' w3 Hst) as (r & w' & Hrun & Hr).
  exists r, w'. split; [|done].
  unfold mbind at 1. unfold JS_bind. rewrite (VideoGameStore_new_run a w).
  fold w1 this w2. unfold mbind, JS_bind, array_overwrite, assign.
  fold w3. apply Hrun.
Qed.

Lemma store_sees_array_changes_witness :
  ∃ res, returns_array
           (this ← VideoGameStore.new 1%positive;
            _ ← array_overwrite 1%positive [VideoGame.new "Pong" 1972%float];
            run_query this (OlderThanAge 1994%float)) games_world res
    ∧ selects (selector (OlderThanAge 1994%float)) [VideoGame.new "Pong" 1972%float] res.
Proof.
  apply (store_sees_array_changes games_world 1%positive example_games).
  vm_compute. reflexivity.
Defined.

(** X4. What a query returns is an array of its own.  After a query,
    change the contents of the returned array to anything: the store is
    still a store over [C], and the next query returns the records it
    selects from [C]. *)
Theorem results_are_copies
    (w : World) (this : loc) (C X : list VideoGame.t) (q q' : Query) :
  store_of w this C →
  ∃ r w1 w2 res,
    run_query this q w = (Normal r, w1)
    ∧ array_overwrite r X w1 = (Normal tt, w2)
    ∧ store_of w2 this C
    ∧ returns_array (run_query this q') w2 res
    ∧ selects (selector q') C res.
Proof.
  intros Hst.
  set (r := fresh (dom (heap w))).
  set (w1 := allocated (ArrayObj (List.filter (selector q) C)) w).
  set (w2 := mkWorld (<[r := ArrayObj X]> (heap w1)) (console w1)).
  assert (store_of w2 this C) as Hst2.
  { unfold w2, w1, allocated. simpl. fold r. rewrite insert_insert_eq.
    apply (store_of_insert_other w this C r (ArrayObj X) Hst), fresh_unused. }
  exists r, w1, w2, (List.filter (selector q') C).
  split; [by apply run_query_run|]. split; [done|]. split; [done|].
  split; [by apply run_query_returns|apply selects_filter].
Qed.

Lemma results_are_copies_witness :
  ∃ r w1 w2 res,
    run_query 3%positive (ByName "Doom") example_world = (Normal r, w1)
    ∧ array_overwrite r [] w1 = (Normal tt, w2)
    ∧ store_of w2 3%positive example_games
    ∧ returns_array (run_query 3%positive (ByName "Doom")) w2 res
    ∧ selects (selector (ByName "Doom")) example_games res.
Proof.
  apply (results_are_copies example_world 3%positive example_games []).
  exists 1%positive. split; vm_compute; reflexivity.
Defined.

(** ** Thresholds and release dates that are not ordinary numbers *)

Lemma is_nan_Prim2SF t : PrimFloat.is_nan t = true → Prim2SF t = S754_nan.
Proof.
  unfold is_nan. rewrite FloatAxioms.eqb_spec, negb_true_iff. unfold SFeqb.
  destruct (Prim2SF t) as [|[]| |s m e]; try done.
  by rewrite SFcompare_refl.
Qed.

Lemma SFcompare_nan_r x : SFcompare x S754_nan = None.
Proof. by destruct x. Qed.

(** No comparison with [NaN] holds. *)
Lemma selector_NaN_threshold t v :
  PrimFloat.is_nan t = true →
  selector (OlderThanAge t) v = false
  ∧ selector (ByAge t) v = false
  ∧ selector (NewerThanAge t) v = false.
Proof.
  intros Ht%is_nan_Prim2SF. simpl. unfold number_lt, number_strict_eq, number_gt.
  rewrite !ltb_spec, FloatAxioms.eqb_spec. unfold SFltb, SFeqb.
  by rewrite Ht, SFcompare_nan_r.
Qed.

Lemma selector_NaN_date t v :
  PrimFloat.is_nan (VideoGame.releaseDate v) = true →
  selector (OlderThanAge t) v = false
  ∧ selector (ByAge t) v = false
  ∧ selector (NewerThanAge t) v = false.
Proof.
  intros Hv%is_nan_Prim2SF. simpl. unfold number_lt, number_strict_eq, number_gt.
  unfold VideoGame.getReleaseDate.
  rewrite !ltb_spec, FloatAxioms.eqb_spec. unfold SFltb, SFeqb.
  by rewrite Hv, SFcompare_nan_r.
Qed.

Lemma filter_none (P : VideoGame.t → bool) C :
  (∀ v, P v = false) → List.filter P C = [].
Proof. intros HP. induction C as [|v C IH]; simpl; [done|]. by rewrite HP. Qed.

(** X5. When the threshold is [NaN], the three numeric queries return
    an empty array on every collection: no release date is less than,
    equal to or greater than [NaN]. *)
Theorem NaN_threshold_selects_nothing
    (w : World) (this : loc) (C : list VideoGame.t) (t : number) :
  store_of w this C →
  PrimFloat.is_nan t = true →
  returns_array (VideoGameStore.getAllGamesOlderThanAge this t) w []
  ∧ returns_array (VideoGameStore.getAllGamesByAge this t) w []
  ∧ returns_array (VideoGameStore.getAllGamesNewerThanAge this t) w [].
Proof.
  intros Hst Ht.
  pose proof (run_query_returns this (OlderThanAge t) C w Hst) as Ho.
  pose proof (run_query_returns this (ByAge t) C w Hst) as He.
  pose proof (run_query_returns this (NewerThanAge t) C w Hst) as Hn.
  rewrite filter_none in Ho, He, Hn;
    try (intros v; by destruct (selector_NaN_threshold t v Ht) as (? & ? & ?)).
  done.
Qed.

Lemma NaN_threshold_selects_nothing_witness :
  returns_array (VideoGameStore.getAllGamesOlderThanAge 3%positive nan) example_world []
  ∧ returns_array (VideoGameStore.getAllGamesByAge 3%positive nan) example_world []
  ∧ returns_array (VideoGameStore.getAllGamesNewerThanAge 3%positive nan) example_world [].
Proof.
  apply (NaN_threshold_selects_nothing example_world 3%positive example_games nan).
  - exists 1%positive. split; vm_compute; reflexivity.
  - reflexivity.
Defined.

(** Four predicates of which every record satisfies exactly one split a
    list into four filtered parts. *)
Lemma filter4_Permutation (P Q R S : VideoGame.t → bool) C :
  Forall (λ v, (P v = true ∧ Q v = false ∧ R v = false ∧ S v = false) ∨
               (P v = false ∧ Q v = true ∧ R v = false ∧ S v = false) ∨
               (P v = false ∧ Q v = false ∧ R v = true ∧ S v = false) ∨
               (P v = false ∧ Q v = false ∧ R v = false ∧ S v = true)) C →
  List.filter P C ++ List.filter Q C ++ List.filter R C ++ List.filter S C ≡ₚ C.
Proof.
  induction 1 as [|v C Hv _ IH]; simpl; [done|].
  destruct Hv as [(-> & -> & -> & ->)|[(-> & -> & -> & ->)|
                  [(-> & -> & -> & ->)|(-> & -> & -> & ->)]]]; simpl.
  - by constructor.
  - rewrite <- Permutation_middle. by constructor.
  - rewrite app_assoc, <- Permutation_middle, <- app_assoc. by constructor.
  - rewrite !app_assoc, <- Permutation_middle, <- !app_assoc. by constructor.
Qed.

(** X6. For a threshold that is not [NaN] and a collection of any
    records, the results of the three numeric queries together with
    the records whose release date is [NaN] are a rearrangement of the
    collection: a record is missed by all three queries exactly when
    its release date is [NaN]. *)
Theorem queries_miss_only_NaN_dates
    (w : World) (this : loc) (C : list VideoGame.t) (t : number) :
  store_of w this C →
  not_NaN t →
  ∃ older equal newer,
    returns_array (VideoGameStore.getAllGamesOlderThanAge this t) w older
    ∧ returns_array (VideoGameStore.getAllGamesByAge this t) w equal
    ∧ returns_array (VideoGameStore.getAllGamesNewerThanAge this t) w newer
    ∧ older ++ equal ++ newer ++
        List.filter (λ v, PrimFloat.is_nan (VideoGame.releaseDate v)) C ≡ₚ C
    ∧ length older + length equal + length newer +
        length (List.filter (λ v, PrimFloat.is_nan (VideoGame.releaseDate v)) C) = length C.
Proof.
  intros Hst Ht.
  set (P := selector (OlderThanAge t)).
  set (Q := selector (ByAge t)).
  set (R := selector (NewerThanAge t)).
  set (S := λ v, PrimFloat.is_nan (VideoGame.releaseDate v)).
  assert (List.filter P C ++ List.filter Q C ++ List.filter R C ++ List.filter S C ≡ₚ C)
    as Hperm.
  { apply filter4_Permutation, Forall_forall. intros v _. unfold P, Q, R, S.
    destruct (PrimFloat.is_nan (VideoGame.releaseDate v)) eqn:Hv.
    - destruct (selector_NaN_date t v Hv) as (-> & -> & ->). auto 10.
    - destruct (number_trichotomy _ t Hv Ht) as [(HP & HQ & HR)|[(HP & HQ & HR)|(HP & HQ & HR)]];
        simpl; unfold VideoGame.getReleaseDate;
        rewrite HP, HQ, HR; auto 10. }
  exists (List.filter P C), (List.filter Q C), (List.filter R C).
  split; [apply (run_query_returns this (OlderThanAge t) C w Hst)|].
  split; [apply (run_query_returns this (ByAge t) C w Hst)|].
  split; [apply (run_query_returns this (NewerThanAge t) C w Hst)|].
  split; [done|].
  apply Permutation_length in Hperm. by rewrite !length_app, !Nat.add_assoc in Hperm.
Qed.

Lemma queries_miss_only_NaN_dates_witness :
  ∃ older equal newer,
    returns_array (VideoGameStore.getAllGamesOlderThanAge 3%positive 1994%float)
      example_world older
    ∧ returns_array (VideoGameStore.getAllGamesByAge 3%positive 1994%float)
        example_world equal
    ∧ returns_array (VideoGameStore.getAllGamesNewerThanAge 3%positive 1994%float)
        example_world newer
    ∧ length older + length equal + length newer + 0 = 3.
Proof.
  destruct (queries_miss_only_NaN_dates example_world 3%positive example_games 1994%float)
    as (older & equal & newer & Ho & He & Hn & _ & Hlen).
  - exists 1%positive. split; vm_compute; reflexivity.
  - reflexivity.
  - by exists older, equal, newer.
Defined.

(** ** How the results vary with the threshold *)

Lemma compare_cont_Eq_spec p q :
  CompareSpec (p = q) (p < q)%positive (q < p)%positive (Pos.compare_cont Eq p q).
Proof. apply Pos.compare_spec. Qed.

Lemma SFcompare_Lt_trans x y z :
  SFcompare x y = Some Lt → SFcompare y z = Some Lt → SFcompare x z = Some Lt.
Proof.
  destruct x as [[]|[]| |[] mx ex], y as [[]|[]| |[] my ey], z as [[]|[]| |[] mz ez];
    simpl; try done;
    destruct (Z.compare_spec ex ey), (Z.compare_spec ey ez), (Z.compare_spec ex ez);
    try done; try lia;
    destruct (compare_cont_Eq_spec mx my), (compare_cont_Eq_spec my mz),
      (compare_cont_Eq_spec mx mz);
    simpl; try done; try lia.
Qed.

Lemma number_lt_trans x y z :
  number_lt x y = true → number_lt y z = true → number_lt x z = true.
Proof.
  unfold number_lt. rewrite !ltb_spec. unfold SFltb.
  destruct (SFcompare (Prim2SF x) (Prim2SF y)) as [[]|] eqn:Hxy; try done.
  destruct (SFcompare (Prim2SF y) (Prim2SF z)) as [[]|] eqn:Hyz; try done.
  by rewrite (SFcompare_Lt_trans _ _ _ Hxy Hyz).
Qed.

Lemma filter_sublist (P Q : VideoGame.t → bool) C :
  (∀ v, P v = true → Q v = true) → List.filter P C `sublist_of` List.filter Q C.
Proof.
  intros HPQ. induction C as [|v C IH]; simpl; [constructor|].
  destruct (P v) eqn:HP.
  - rewrite (HPQ v HP). by constructor.
  - destruct (Q v); [by constructor|done].
Qed.

(** X7. Raising the threshold can only add to the older games and
    remove from the newer ones.  For [t < t'], the result of
    [getAllGamesOlderThanAge(t)] is obtained from that of
    [getAllGamesOlderThanAge(t')] by deleting records, the result of
    [getAllGamesNewerThanAge(t')] from that of
    [getAllGamesNewerThanAge(t)] likewise, and no game older than [t] is
    newer than [t']. *)
Theorem thresholds_monotone
    (w : World) (this : loc) (C : list VideoGame.t) (t t' : number) :
  store_of w this C →
  number_lt t t' = true →
  ∃ older older' newer newer',
    returns_array (VideoGameStore.getAllGamesOlderThanAge this t) w older
    ∧ returns_array (VideoGameStore.getAllGamesOlderThanAge this t') w older'
    ∧ returns_array (VideoGameStore.getAllGamesNewerThanAge this t) w newer
    ∧ returns_array (VideoGameStore.getAllGamesNewerThanAge this t') w newer'
    ∧ older `sublist_of` older'
    ∧ newer' `sublist_of` newer
    ∧ (∀ v, v ∈ older → v ∉ newer').
Proof.
  intros Hst Htt'.
  exists (List.filter (selector (OlderThanAge t)) C),
    (List.filter (selector (OlderThanAge t')) C),
    (List.filter (selector (NewerThanAge t)) C),
    (List.filter (selector (NewerThanAge t')) C).
  split; [apply (run_query_returns this (OlderThanAge t) C w Hst)|].
  split; [apply (run_query_returns this (OlderThanAge t') C w Hst)|].
  split; [apply (run_query_returns this (NewerThanAge t) C w Hst)|].
  split; [apply (run_query_returns this (NewerThanAge t') C w Hst)|].
  split. { apply filter_sublist. intros v Hv. exact (number_lt_trans _ t t' Hv Htt'). }
  split. { apply filter_sublist. intros v Hv. exact (number_lt_trans t t' _ Htt' Hv). }
  intros v [_ Ho]%list_elem_of_In%filter_In [_ Hn]%list_elem_of_In%filter_In.
  simpl in Ho, Hn.
  pose proof (number_lt_trans _ _ _ Ho Htt') as Hlt.
  apply number_lt_not_gt in Hlt. unfold number_gt in *. congruence.
Qed.

Lemma thresholds_monotone_witness :
  ∃ older older',
    returns_array (VideoGameStore.getAllGamesOlderThanAge 3%positive 1994%float)
      example_world older
    ∧ returns_array (VideoGameStore.getAllGamesOlderThanAge 3%positive 1995%float)
        example_world older'
    ∧ older `sublist_of` older'.
Proof.
  destruct (thresholds_monotone example_world 3%positive example_games 1994%float 1995%float)
    as (older & older' & _ & _ & Ho & Ho' & _ & _ & Hsub & _).
  - exists 1%positive. split; vm_compute; reflexivity.
  - reflexivity.
  - by exists older, older'.
Defined.

Lemma SFcompare_eq_r x y z : SFeqb y z = true → SFcompare x y = SFcompare x z.
Proof.
  intros [->|(s & s' & -> & ->)]%SFeqb_true; [done|].
  by destruct x as [[]|[]| |[] mx ex].
Qed.

Lemma SFcompare_eq_l x y z : SFeqb y z = true → SFcompare y x = SFcompare z x.
Proof.
  intros Hyz. by rewrite (SFcompare_swap x y), (SFcompare_swap x z), (SFcompare_eq_r x y z).
Qed.

Lemma filter_ext_all (P Q : VideoGame.t → bool) C :
  (∀ v, P v = Q v) → List.filter P C = List.filter Q C.
Proof. intros HPQ. induction C as [|v C IH]; simpl; [done|]. by rewrite HPQ, IH. Qed.

(** X8. Thresholds that are [===] cannot be told apart: each numeric
    query runs to the same completion and the same world with the one
    as with the other.  This covers the two zeros, [0] and [-0]. *)
Theorem equal_thresholds_same_results
    (w : World) (this : loc) (C : list VideoGame.t) (t t' : number) :
  store_of w this C →
  number_strict_eq t t' = true →
  run_query this (OlderThanAge t) w = run_query this (OlderThanAge t') w
  ∧ run_query this (ByAge t) w = run_query this (ByAge t') w
  ∧ run_query this (NewerThanAge t) w = run_query this (NewerThanAge t') w.
Proof.
  unfold number_strict_eq. rewrite FloatAxioms.eqb_spec. intros Hst Htt'.
  rewrite !(run_query_run this _ C w Hst).
  repeat split; do 3 f_equal; apply filter_ext_all; intros v; simpl;
    unfold number_lt, number_strict_eq, number_gt;
    rewrite ?ltb_spec, ?FloatAxioms.eqb_spec; unfold SFltb, SFeqb.
  - by rewrite (SFcompare_eq_r _ _ _ Htt').
  - by rewrite (SFcompare_eq_r _ _ _ Htt').
  - by rewrite (SFcompare_eq_l _ _ _ Htt').
Qed.

Lemma equal_thresholds_same_results_witness :
  run_query 3%positive (OlderThanAge 0%float) example_world =
    run_query 3%positive (OlderThanAge (-0)%float) example_world
  ∧ run_query 3%positive (ByAge 0%float) example_world =
      run_query 3%positive (ByAge (-0)%float) example_world
  ∧ run_query 3%positive (NewerThanAge 0%float) example_world =
      run_query 3%positive (NewerThanAge (-0)%float) example_world.
Proof.
  apply (equal_thresholds_same_results example_world 3%positive example_games).
  - exists 1%positive. split; vm_compute; reflexivity.
  - reflexivity.
Defined.

(** ** Empty and complete results; queries run on results *)

Lemma filter_nil_iff (P : VideoGame.t → bool) C :
  List.filter P C = [] ↔ Forall (λ v, P v = false) C.
Proof.
  induction C as [|v C IH]; simpl; [by split; [constructor|]|].
  destruct (P v) eqn:HP.
  - split; [done|]. intros HF. apply Forall_cons_1 in HF as [? _]. congruence.
  - rewrite IH. split; [by constructor|]. by intros [_ ?]%Forall_cons_1.
Qed.

Lemma filter_length_le (P : VideoGame.t → bool) C : length (List.filter P C) ≤ length C.
Proof. induction C as [|v C IH]; simpl; [done|]. destruct (P v); simpl; lia. Qed.

Lemma filter_whole_iff (P : VideoGame.t → bool) C :
  List.filter P C = C ↔ Forall (λ v, P v = true) C.
Proof.
  split.
  - intros Heq. rewrite <- Heq. apply filter_Forall.
  - induction 1 as [|v C Hv _ IH]; simpl; [done|]. by rewrite Hv, IH.
Qed.

(** X9. A query returns the empty array exactly when no record of the
    collection satisfies its condition, and an array with the same
    elements as the collection exactly when all records do; it never
    returns more records than the collection has. *)
Theorem query_empty_or_whole (w : World) (this : loc) (C : list VideoGame.t) (q : Query) :
  store_of w this C →
  ∃ res, returns_array (run_query this q) w res
    ∧ (res = [] ↔ Forall (λ v, selector q v = false) C)
    ∧ (res = C ↔ Forall (λ v, selector q v = true) C)
    ∧ length res ≤ length C.
Proof.
  intros Hst. exists (List.filter (selector q) C).
  split; [by apply run_query_returns|].
  split; [apply filter_nil_iff|].
  split; [apply filter_whole_iff|apply filter_length_le].
Qed.

Lemma query_empty_or_whole_witness :
  ∃ res, returns_array (run_query 3%positive (ByName "Tetris")) example_world res
    ∧ res = [].
Proof.
  destruct (query_empty_or_whole example_world 3%positive example_games (ByName "Tetris"))
    as (res & Hret & Hnil & _).
  - exists 1%positive. split; vm_compute; reflexivity.
  - exists res. split; [done|]. apply Hnil. repeat constructor.
Defined.

Lemma filter_filter_and (P Q : VideoGame.t → bool) C :
  List.filter Q (List.filter P C) = List.filter (λ v, P v && Q v) C.
Proof.
  induction C as [|v C IH]; simpl; [done|].
  destruct (P v); simpl; [|done]. destruct (Q v); by rewrite IH.
Qed.

(** A getter query run on the result of another. *)
Lemma chain_getter_queries_returns this coll K q1 q2 w :
  heap w !! coll = Some (ArrayObj K) →
  returns_array (chain_getter_queries this coll q1 q2) w
    (List.filter (λ v, selector q1 v && selector q2 v) K).
Proof.
  intros Hcoll.
  set (w1 := allocated (ArrayObj (List.filter (selector q1) K)) w).
  assert (chain_getter_queries this coll q1 q2 w =
            (Normal (fresh (dom (heap w1))),
             allocated (ArrayObj (List.filter (selector q2) (List.filter (selector q1) K))) w1))
    as Hrun.
  { unfold chain_getter_queries, mbind, JS_bind.
    rewrite (run_getter_query_filter this coll q1), (Array_filter_run coll _ K w Hcoll).
    fold w1. rewrite run_getter_query_filter.
    apply Array_filter_run, allocated_lookup_new. }
  eexists _, _. split; [exact Hrun|].
  rewrite filter_filter_and. apply allocated_lookup_new.
Qed.

(** X10. The queries of [VideoGameStoreGetter] can be chained, since
    they take and return arrays.  Running one query on the result of
    another returns the records of the collection that satisfy both
    conditions, each once and in the order of the collection, and the
    order in which the two queries are chained makes no difference to
    the elements returned. *)
Theorem chained_queries_commute
    (w : World) (this this' coll : loc) (K : list VideoGame.t) (q1 q2 : Query) :
  heap w !! coll = Some (ArrayObj K) →
  ∃ res, returns_array (chain_getter_queries this coll q1 q2) w res
    ∧ returns_array (chain_getter_queries this' coll q2 q1) w res
    ∧ Forall (λ v, selector q1 v = true ∧ selector q2 v = true) res
    ∧ selects (λ v, selector q1 v && selector q2 v) K res.
Proof.
  intros Hcoll. exists (List.filter (λ v, selector q1 v && selector q2 v) K).
  split; [by apply chain_getter_queries_returns|].
  split.
  { rewrite (filter_ext_all _ (λ v, selector q2 v && selector q1 v)).
    - by apply chain_getter_queries_returns.
    - intros v. apply andb_comm. }
  split; [|apply selects_filter].
  eapply Forall_impl; [apply filter_Forall|]. intros v. apply andb_true_iff.
Qed.

Lemma chained_queries_commute_witness :
  ∃ res, returns_array
           (chain_getter_queries 1%positive 1%positive
              (NewerThanAge 1993%float) (OlderThanAge 1995%float)) games_world res
    ∧ returns_array
        (chain_getter_queries 1%positive 1%positive
           (OlderThanAge 1995%float) (NewerThanAge 1993%float)) games_world res
    ∧ res = [VideoGame.new "Doom II" 1994%float].
Proof.
  destruct (chained_queries_commute games_world 1%positive 1%positive 1%positive
              example_games (NewerThanAge 1993%float) (OlderThanAge 1995%float))
    as (res & H1 & H2 & _ & Hsel).
  - vm_compute. reflexivity.
  - exists res. split; [done|]. split; [done|].
    by rewrite (selects_unique _ _ _ Hsel).
Defined.

(** ** Runs of calls that may throw *)

Lemma logged_nil w : logged [] w = w.
Proof. destruct w as [h c]. unfold logged. simpl. by rewrite app_nil_r. Qed.

Lemma logged_logged l1 l2 w : logged l2 (logged l1 w) = logged (l1 ++ l2) w.
Proof. unfold logged. simpl. by rewrite app_assoc. Qed.

Lemma console_log_run s w : console_log s w = (Normal tt, logged [s] w).
Proof. done. Qed.

Lemma call_breathe_run (x : LivingBeing.t) (w : World) :
  call_breathe x w =
    if is_plant x then (Throw (mkError ErrorC "I don't breathe"), w)
    else (Normal tt, logged ["I'm breathing"%string] w).
Proof. by destruct x. Qed.

(** X11. Calling [breathe()] on each living being of a list, in order,
    stops at the first plant: the run ends by throwing the plant's
    error after one line has been logged for each being before it, and
    the beings after it are never reached.  The run completes normally
    exactly when the list holds no plant, and then logs one line per
    being. *)
Theorem breathe_all_stops_at_first_plant (xs : list LivingBeing.t) (w : World) :
  breathe_all xs w =
    (completion_of
       (if existsb is_plant xs then Some (mkError ErrorC "I don't breathe") else None),
     logged (replicate (length (before_first is_plant xs)) "I'm breathing"%string) w)
  ∧ ((breathe_all xs w).1 = Normal tt ↔ Forall (λ x, is_plant x = false) xs)
  ∧ (existsb is_plant xs = false → before_first is_plant xs = xs).
Proof.
  split; [|split].
  - revert w. induction xs as [|x xs IH]; intros w; simpl.
    + by rewrite logged_nil.
    + unfold mbind, JS_bind. rewrite call_breathe_run.
      destruct (is_plant x); simpl; [by rewrite logged_nil|].
      by rewrite IH, logged_logged.
  - revert w. induction xs as [|x xs IH]; intros w; simpl; [by split; [constructor|]|].
    unfold mbind, JS_bind. rewrite call_breathe_run.
    destruct (is_plant x) eqn:Hx; simpl.
    + split; [done|]. intros [? _]%Forall_cons_1. congruence.
    + rewrite IH. split; [by constructor|by intros [_ ?]%Forall_cons_1].
  - induction xs as [|x xs IH]; simpl; [done|].
    destruct (is_plant x); simpl; [done|]. intros Hxs. by rewrite IH.
Qed.

Lemma call_method_console (g : ConsoleVideoGame.t) (m : PCMethod) (w : World) :
  call_method g m w = (Normal tt, logged [console_line m] w).
Proof. by destruct m. Qed.

(** X12. A [ConsoleVideoGame] serves every session of [PCVideoGame]
    calls: whatever calls are made and in whatever order, the run
    completes normally, logs the line of each call in the order of the
    calls, and changes nothing else. *)
Theorem ConsoleVideoGame_session_completes
    (g : ConsoleVideoGame.t) (ms : list PCMethod) (w : World) :
  session g ms w = (Normal tt, logged (console_line <$> ms) w).
Proof.
  revert w. induction ms as [|m ms IH]; intros w; simpl.
  - by rewrite logged_nil.
  - unfold mbind, JS_bind. by rewrite call_method_console, IH, logged_logged.
Qed.

Lemma call_method_hardcore (g : HardcoreVideoGame.t) (m : PCMethod) (w : World) :
  call_method g m w =
    if refused m then (Throw (mkError ErrorC (hardcore_line m)), w)
    else (Normal tt, logged [hardcore_line m] w).
Proof. by destruct m. Qed.

(** X13. A session on a [HardcoreVideoGame] stops at the first
    [overrideSave()] or [load()]: the run ends by throwing the error of
    that call, after the lines of the calls before it have been logged,
    and no later call is made.  The run completes normally exactly when
    the session consists of [play()] and [save()] calls only. *)
Theorem HardcoreVideoGame_session_stops
    (g : HardcoreVideoGame.t) (ms : list PCMethod) (w : World) :
  session g ms w =
    (completion_of ((λ m, mkError ErrorC (hardcore_line m)) <$> first_stop refused ms),
     logged (hardcore_line <$> before_first refused ms) w)
  ∧ ((session g ms w).1 = Normal tt ↔ Forall (λ m, refused m = false) ms).
Proof.
  split.
  - revert w. induction ms as [|m ms IH]; intros w; simpl.
    + by rewrite logged_nil.
    + unfold mbind, JS_bind. rewrite call_method_hardcore.
      destruct (refused m); simpl; [by rewrite logged_nil|].
      by rewrite IH, logged_logged.
  - revert w. induction ms as [|m ms IH]; intros w; simpl; [by split; [constructor|]|].
    unfold mbind, JS_bind. rewrite call_method_hardcore.
    destruct (refused m) eqn:Hm; simpl.
    + split; [done|]. intros [? _]%Forall_cons_1. congruence.
    + rewrite IH. split; [by constructor|by intros [_ ?]%Forall_cons_1].
Qed.

(** ** Teachers and students *)

Lemma heap_logged lines w : heap (logged lines w) = heap w.
Proof. done. Qed.

Lemma teach_run g n s' w :
  heap w !! g = Some (CorrectGentlemanObj n s') →
  heap w !! s' = Some (StudentObj StudentC) →
  CorrectGentleman.teach g w = (Normal tt, logged ["I'm learning"%string] w).
Proof.
  intros Hg Hs'. unfold CorrectGentleman.teach, mbind, JS_bind, CorrectGentleman.get_student.
  rewrite Hg. unfold call_learn. by rewrite Hs'.
Qed.

Lemma teach_times_run g n s' k w :
  heap w !! g = Some (CorrectGentlemanObj n s') →
  heap w !! s' = Some (StudentObj StudentC) →
  teach_times g k w = (Normal tt, logged (replicate k "I'm learning"%string) w).
Proof.
  revert w. induction k as [|k IH]; intros w Hg Hs'; simpl.
  - by rewrite logged_nil.
  - unfold mbind, JS_bind. rewrite (teach_run g n s' w Hg Hs').
    rewrite IH; [|by rewrite heap_logged..]. by rewrite logged_logged.
Qed.

(** X14. A [CorrectGentleman] built with the name [n] and any student
    argument can teach any number of times: [k] calls of [teach()] all
    complete normally, log "I'm learning" [k] times and nothing else,
    change no object, and [getName()] afterwards still returns [n]. *)
Theorem CorrectGentleman_teaches_repeatedly (w : World) (n : string) (s : loc) (k : nat) :
  ∃ g w', CorrectGentleman.new n s w = (Normal g, w')
    ∧ (_ ← teach_times g k; CorrectGentleman.getName g) w' =
        (Normal n, logged (replicate k "I'm learning"%string) w').
Proof.
  set (ws := allocated (StudentObj StudentC) w).
  set (s' := fresh (dom (heap w))).
  set (o := CorrectGentlemanObj n s').
  exists (fresh (dom (heap ws))), (allocated o ws). split; [done|].
  assert (heap (allocated o ws) !! fresh (dom (heap ws)) = Some o) as Hg
    by apply allocated_lookup_new.
  assert (heap (allocated o ws) !! s' = Some (StudentObj StudentC)) as Hs'
    by apply allocated_lookup_old, allocated_lookup_new.
  unfold mbind, JS_bind. rewrite (teach_times_run _ n s' k _ Hg Hs').
  unfold CorrectGentleman.getName. by rewrite heap_logged, Hg.
Qed.

(** X15. Every [CorrectGentleman] gets a student of its own.  Two
    gentlemen built one after the other, even with the same student
    argument, are different objects whose [student] fields refer to
    two different new [Student] objects; building them changes no
    earlier object and logs nothing. *)
Theorem CorrectGentlemen_do_not_share (w : World) (n1 n2 : string) (s : loc) :
  ∃ g1 g2 s1 s2 w',
    (g1 ← CorrectGentleman.new n1 s; g2 ← CorrectGentleman.new n2 s; mret (g1, g2)) w =
      (Normal (g1, g2), w')
    ∧ heap w' !! g1 = Some (CorrectGentlemanObj n1 s1)
    ∧ heap w' !! g2 = Some (CorrectGentlemanObj n2 s2)
    ∧ heap w' !! s1 = Some (StudentObj StudentC)
    ∧ heap w' !! s2 = Some (StudentObj StudentC)
    ∧ s1 ≠ s2 ∧ g1 ≠ g2
    ∧ heap w !! s1 = None ∧ heap w !! s2 = None
    ∧ heap w !! g1 = None ∧ heap w !! g2 = None
    ∧ (∀ l o, heap w !! l = Some o → heap w' !! l = Some o)
    ∧ console w' = console w.
Proof.
  set (wa := allocated (StudentObj StudentC) w).
  set (s1 := fresh (dom (heap w))).
  set (wb := allocated (CorrectGentlemanObj n1 s1) wa).
  set (g1 := fresh (dom (heap wa))).
  set (wc := allocated (StudentObj StudentC) wb).
  set (s2 := fresh (dom (heap wb))).
  set (wd := allocated (CorrectGentlemanObj n2 s2) wc).
  set (g2 := fresh (dom (heap wc))).
  assert (heap wa !! s1 = Some (StudentObj StudentC)) as Hs1 by apply allocated_lookup_new.
  assert (heap wb !! g1 = Some (CorrectGentlemanObj n1 s1)) as Hg1
    by apply allocated_lookup_new.
  assert (heap wc !! s2 = Some (StudentObj StudentC)) as Hs2 by apply allocated_lookup_new.
  assert (heap wd !! g2 = Some (CorrectGentlemanObj n2 s2)) as Hg2
    by apply allocated_lookup_new.
  pose proof (fresh_unused w) as Fs1. fold s1 in Fs1.
  pose proof (fresh_unused wa) as Fg1. fold g1 in Fg1.
  pose proof (fresh_unused wb) as Fs2. fold s2 in Fs2.
  pose proof (fresh_unused wc) as Fg2. fold g2 in Fg2.
  pose proof (allocated_lookup_old (CorrectGentlemanObj n1 s1) wa) as Oab. fold wb in Oab.
  pose proof (allocated_lookup_old (StudentObj StudentC) wb) as Obc. fold wc in Obc.
  pose proof (allocated_lookup_old (CorrectGentlemanObj n2 s2) wc) as Ocd. fold wd in Ocd.
  pose proof (allocated_lookup_old (StudentObj StudentC) w) as Owa. fold wa in Owa.
  exists g1, g2, s1, s2, wd.
  split; [done|].
  split; [by apply Ocd, Obc|]. split; [done|].
  split; [by apply Ocd, Obc, Oab|]. split; [by apply Ocd|].
  split. { intros Heq. rewrite <- Heq in Fs2. rewrite (Oab _ _ Hs1) in Fs2. done. }
  split. { intros Heq. rewrite <- Heq in Fg2. rewrite (Obc _ _ Hg1) in Fg2. done. }
  split; [done|].
  split. { by apply (allocated_unused_old (StudentObj StudentC)),
             (allocated_unused_old (CorrectGentlemanObj n1 s1)). }
  split. { by apply (allocated_unused_old (StudentObj StudentC)). }
  split. { by apply (allocated_unused_old (StudentObj StudentC)),
             (allocated_unused_old (CorrectGentlemanObj n1 s1)),
             (allocated_unused_old (StudentObj StudentC)). }
  split; [|done].
  intros l x Hl. by apply Ocd, Obc, Oab, Owa.
Qed.

(** X16. [learn()] is dispatched on the class of the object: called on
    a new [Student] it logs "I'm learning", called on a new
    [CorrectJavascriptStudent] it logs "I'm learning Javascript".  The
    first [Gentleman], which builds its own [JavascriptStudent], logs
    "I'm learning Javascript" for every name and keeps that name. *)
Theorem learn_is_dispatched (w : World) (n : string) :
  (s ← Student.new; call_learn s) w =
    (Normal tt, logged ["I'm learning"%string] (allocated (StudentObj StudentC) w))
  ∧ (s ← CorrectJavascriptStudent.new; call_learn s) w =
      (Normal tt, logged ["I'm learning Javascript"%string]
                    (allocated (StudentObj CorrectJavascriptStudentC) w))
  ∧ Gentleman.teachJavascript (Gentleman.new n) w =
      (Normal tt, logged ["I'm learning Javascript"%string] w)
  ∧ Gentleman.getName (Gentleman.new n) = n.
Proof.
  split; [|split; [|done]].
  - unfold mbind, JS_bind, Student.new. rewrite alloc_run. unfold call_learn.
    by rewrite allocated_lookup_new.
  - unfold mbind, JS_bind, CorrectJavascriptStudent.new. rewrite alloc_run.
    unfold call_learn. by rewrite allocated_lookup_new.
Qed.
